(** * Image lineage walker (ui/components/ImageLineage.tsx)

    A shallow embedding of the backward walk that [useImageLineage] and
    [traverseLineage] perform over proof records, together with the
    properties the specification states about it.

    Conventions of the embedding
    - an optional field ([x?: string]) is an [option string]; JavaScript
      truthiness of such a field (present and not the empty string) is
      [truthy];
    - [Set<string>] is a [gset string]; only [add] and [has] are used by
      the source, so insertion order is irrelevant;
    - [Array.push] appends at the end of a [list];
    - [level] is a JavaScript number that only ever holds small naturals
      (it starts at 0 or 1 and is incremented by one), so it is a [nat];
    - the awaited call [findProofsByHash] is an external collaborator: it
      is a parameter of the development, indexed by the number of calls
      already made so that a store that changes between calls is covered;
    - the [while] loop takes a fuel argument; [None] means the fuel ran
      out, never that the walk failed. *)

From stdpp Require Import base option list strings gmap.
From Stdlib Require Import Lia.

Open Scope string_scope.
Open Scope list_scope.

(** ** Data model *)

Module ProofRecord.

(** Modelled from the spec: the declaration of [ProofRecord] lives in
    lib/database-service, which is not among the sources.  The fields
    are those the component reads or writes ([createOrphanProof] and the
    rendering code); optionality follows section 3 of the specification. *)
Record t := mk {
  id : option string;
  imageName : option string;
  originalImageHash : option string;
  transformedImageHash : option string;
  proof : string;
  publicValues : string;
  ipfsImageUri : option string;
  ipfsMetadataUri : string;
  timestamp : option string
}.

End ProofRecord.

Module LineageNode.

(** [interface LineageNode]: [isOrphan] is optional, and a node pushed
    without it has [None] there. *)
Record t := mk {
  proof : ProofRecord.t;
  level : nat;
  isOrphan : option bool
}.

End LineageNode.

(** What one awaited [findProofsByHash] call gives back: the promise
    rejects, or it resolves to [{ success, data }]. *)
Inductive LookupReply :=
| Rejects
| Resolves (success : bool) (data : option (list ProofRecord.t)).

(** JavaScript truthiness of an optional string. *)
Definition truthy (o : option string) : option string :=
  match o with
  | Some s => if decide (s = "") then None else Some s
  | None => None
  end.

(** [if (h) visitedHashes.add(h)]. *)
Definition addHash (o : option string) (visited : gset string) : gset string :=
  match truthy o with
  | Some h => {[ h ]} ∪ visited
  | None => visited
  end.

(** [createOrphanProof(hash, name)]. *)
Definition createOrphanProof (hash name : string) : ProofRecord.t :=
  {| ProofRecord.id := None;
     ProofRecord.imageName := Some name;
     ProofRecord.originalImageHash := Some hash;
     ProofRecord.transformedImageHash := None;
     ProofRecord.proof := "";
     ProofRecord.publicValues := "";
     ProofRecord.ipfsImageUri := None;
     ProofRecord.ipfsMetadataUri := "";
     ProofRecord.timestamp := Some "" |}.

(** The two shapes of node the walk pushes: without the flag, and with
    [isOrphan: true]. *)
Definition plainNode (p : ProofRecord.t) (lvl : nat) : LineageNode.t :=
  LineageNode.mk p lvl None.

Definition orphanNode (p : ProofRecord.t) (lvl : nat) : LineageNode.t :=
  LineageNode.mk p lvl (Some true).

(** [node.isOrphan] used as a condition. *)
Definition flagged (n : LineageNode.t) : bool :=
  match LineageNode.isOrphan n with
  | Some b => b
  | None => false
  end.

(** ** The loop of [traverseLineage] *)

(** The local variables of [traverseLineage], the two mutable arguments
    it shares with its caller, and the log of the hashes handed to
    [findProofsByHash] so far (a ghost field: the source keeps no such
    log, it is here so that statements can speak about the calls). *)
Record WalkState := MkWalk {
  lineageNodes : list LineageNode.t;
  visitedHashes : gset string;
  currentHash : string;
  level : nat;
  foundParent : bool;
  queried : list string
}.

(** How one pass through the loop body ends. *)
Inductive Step :=
| Continue (st : WalkState)
| Break (st : WalkState)
| Throw (asked : list string).

(** How the loop ends. *)
Inductive LoopExit :=
| Exited (st : WalkState)
| Thrown (asked : list string).

(** What the promise returned by [traverseLineage] settles to, with the
    final contents of the two mutated arguments. *)
Inductive Traversal :=
| Fulfilled (found : bool) (nodes : list LineageNode.t)
            (visited : gset string) (asked : list string)
| Rejected (asked : list string).

(** The state of the hook: [lineage], [loading] and [error]. *)
Record HookState := MkHook {
  lineage : list LineageNode.t;
  loading : bool;
  error : option string
}.

(** A call of one of the three state setters of the hook. *)
Inductive HookCall :=
| SetLineage (value : list LineageNode.t)
| SetLoading (value : bool)
| SetError (value : option string).

(** The hook state once a setter has been called on it. *)
Definition applyCall (hook : HookState) (call : HookCall) : HookState :=
  match call with
  | SetLineage value => MkHook value (loading hook) (error hook)
  | SetLoading value => MkHook (lineage hook) value (error hook)
  | SetError value => MkHook (lineage hook) (loading hook) value
  end.

(** What one run of [fetchLineage] does: the hashes it asked about; the
    setter calls it makes before it awaits the walk; and the setter
    calls it makes once the walk has settled, with nothing awaited in
    between.  Other runs of the effect can act on the hook between the
    opening and the closing calls, never inside either group. *)
Record Run := MkRun {
  lookups : list string;
  opening : list HookCall;
  closing : list HookCall
}.

(** [success && data && data.length > 0]. *)
Definition usableData (success : bool) (data : option (list ProofRecord.t))
  : option (list ProofRecord.t) :=
  match success, data with
  | true, Some (r :: rs) => Some (r :: rs)
  | _, _ => None
  end.

(** [data.find((p) => p.transformedImageHash === currentHash)]. *)
Definition findParent (hash : string) (data : list ProofRecord.t)
  : option ProofRecord.t :=
  find (fun p => bool_decide (ProofRecord.transformedImageHash p = Some hash)) data.

(** [lineageNodes[lineageNodes.length - 1]], then the placeholder that is
    pushed when the loop ended without a parent. *)
Definition backfill (st : WalkState) : list LineageNode.t :=
  match last (lineageNodes st) with
  | Some lastNode =>
      match foundParent st,
            truthy (ProofRecord.originalImageHash (LineageNode.proof lastNode)) with
      | false, Some h =>
          lineageNodes st ++
            [orphanNode (createOrphanProof h "Unknown Parent Image")
                        (LineageNode.level lastNode + 1)]
      | _, _ => lineageNodes st
      end
  | None => lineageNodes st
  end.

(** ** What the component displays *)

(** The rendering code is embedded as functions to plain descriptions
    of what is shown; markup, class names and React keys are left out. *)

(** What [NodeTitle] shows. *)
Inductive Title :=
| CurrentImage
| OrphanLabel (text : string)
| GalleryLink (href : string) (text : option string).

(** What [ImageThumbnail] shows: the image, or an empty frame in the
    orphan or the normal style with the start of the hash under it. *)
Inductive Thumbnail :=
| Picture (src alt : string)
| Blank (orphanStyle : bool) (caption : option string).

(** The three styles of the dot of a row. *)
Inductive Dot := DotCurrent | DotOrphan | DotAncestor.

(** One row of the timeline, as the [LineageNode] component lays it out. *)
Record Row := MkRow {
  dot : Dot;
  thumbnail : Thumbnail;
  title : Title;
  date : string;
  originalLine : option string
}.

(** What [ImageLineage] returns. *)
Inductive View :=
| LoadingIndicator
| ErrorMessage (message : string)
| Timeline (line : bool) (rows : list Row).

(** A template literal's rendering of an optional string. *)
Definition interpolate (o : option string) : string :=
  match o with
  | Some s => s
  | None => "undefined"
  end.

(** [x || fallback] on an optional string. *)
Definition orElse (o : option string) (fallback : string) : string :=
  match truthy o with
  | Some s => s
  | None => fallback
  end.

(** The [NodeTitle] component. *)
Definition NodeTitle (node : LineageNode.t) (index : nat) : Title :=
  if decide (index = 0) then CurrentImage
  else if flagged node then
    OrphanLabel (match truthy (ProofRecord.id (LineageNode.proof node)) with
                 | Some _ => "Circular Reference"
                 | None => "Private Image"
                 end)
  else
    GalleryLink ("/gallery/" +:+ interpolate (ProofRecord.id (LineageNode.proof node)))
                (ProofRecord.imageName (LineageNode.proof node)).

Section Rendering.

(** The gateway resolver of lib/ipfs-service and the date formatting of
    the browser, both outside the component. *)
Variable getIPFSGatewayURL : string -> string.
Variable toLocaleString : string -> string.

(** [text.substring(start, end)] of JavaScript, which cuts at UTF-16
    code units: a built-in of the language, taken as it is. *)
Variable substring : nat -> nat -> string -> string.

(** The [ImageThumbnail] component. *)
Definition ImageThumbnail (node : LineageNode.t) : Thumbnail :=
  match truthy (ProofRecord.ipfsImageUri (LineageNode.proof node)) with
  | Some uri =>
      Picture (getIPFSGatewayURL uri)
              (orElse (ProofRecord.imageName (LineageNode.proof node)) "Image")
  | None =>
      Blank (flagged node)
            (match truthy (ProofRecord.originalImageHash (LineageNode.proof node)) with
             | Some hash => Some (substring 0 8 hash +:+ "...")
             | None => None
             end)
  end.

(** The [LineageNode] component (the name is taken by the node type). *)
Definition LineageNodeView (node : LineageNode.t) (index : nat) : Row :=
  {| dot := if decide (index = 0) then DotCurrent
            else if flagged node then DotOrphan
            else DotAncestor;
     thumbnail := ImageThumbnail node;
     title := NodeTitle node index;
     date := match truthy (ProofRecord.timestamp (LineageNode.proof node)) with
             | Some stamp => toLocaleString stamp
             | None => "Unknown date"
             end;
     originalLine :=
       match truthy (ProofRecord.originalImageHash (LineageNode.proof node)) with
       | Some hash => Some ("Original: " +:+ substring 0 10 hash +:+ "...")
       | None => None
       end |}.

(** The [ImageLineage] component, on the state its hook is in. *)
Definition ImageLineage (hook : HookState) : View :=
  if loading hook then LoadingIndicator
  else
    match truthy (error hook) with
    | Some message => ErrorMessage message
    | None =>
        Timeline (bool_decide (1 < length (lineage hook)))
                 (imap (fun index node => LineageNodeView node index) (lineage hook))
    end.

End Rendering.

(** ** The webpack hook of next.config.ts *)

Module NextConfig.

Section Webpack.

(** Configuration values and the rest of the configuration object are
    whatever webpack has there; the hook only builds a boolean and a
    string. *)
Context {Value Rest : Type}.
Variable ofBoolean : bool -> Value.
Variable ofString : string -> Value.

(** The configuration object, as far as the hook looks into it. *)
Record Config := MkConfig {
  experiments : option (gmap string Value);
  output : option (gmap string Value);
  rest : Rest
}.

(** [{...o}]: the properties of [o], none when [o] is undefined. *)
Definition spread (o : option (gmap string Value)) : gmap string Value :=
  match o with
  | Some properties => properties
  | None => ∅
  end.

(** [webpack: (config) => { ...; return config; }]. *)
Definition webpack (config : Config) : Config :=
  {| experiments :=
       Some (<[ "layers" := ofBoolean true ]>
               (<[ "asyncWebAssembly" := ofBoolean true ]>
                  (spread (experiments config))));
     output :=
       Some (<[ "webassemblyModuleFilename" := ofString "static/wasm/[modulehash].wasm" ]>
               (spread (output config)));
     rest := rest config |}.

End Webpack.

End NextConfig.

(** ** Records and stores used in the examples *)

Module Scenario.

(** A stored record with the given identifier and hashes. *)
Definition recordOf (ident : string) (original transformed : option string)
  : ProofRecord.t :=
  {| ProofRecord.id := Some ident;
     ProofRecord.imageName := Some ident;
     ProofRecord.originalImageHash := original;
     ProofRecord.transformedImageHash := transformed;
     ProofRecord.proof := "0xproof";
     ProofRecord.publicValues := "0xvalues";
     ProofRecord.ipfsImageUri := None;
     ProofRecord.ipfsMetadataUri := "ipfs://metadata";
     ProofRecord.timestamp := Some "2025-03-01T10:00:00Z" |}.

(** The chain of the specification: [current] was made from "h1", which
    [parent] made from "h0". *)
Definition current : ProofRecord.t := recordOf "current" (Some "h1") (Some "h2").
Definition parent : ProofRecord.t := recordOf "parent" (Some "h0") (Some "h1").

(** A starting proof from "h1" whose own output is "h0". *)
Definition currentBack : ProofRecord.t := recordOf "current" (Some "h1") (Some "h0").

(** A producer of "h1" that does not say what it was made from. *)
Definition parentless : ProofRecord.t := recordOf "parent" None (Some "h1").

(** A record that has nothing to do with "h1". *)
Definition unrelated : ProofRecord.t := recordOf "other" (Some "h7") (Some "h8").

(** The cycle of the specification. *)
Definition cycleStart : ProofRecord.t := recordOf "start" (Some "hA") None.
Definition cycleStartBack : ProofRecord.t := recordOf "start" (Some "hA") (Some "hB").
Definition fromB : ProofRecord.t := recordOf "r1" (Some "hB") (Some "hA").
Definition fromA : ProofRecord.t := recordOf "r2" (Some "hA") (Some "hB").

(** The records a table gives for a hash: those of the first row for
    that hash, none when there is no such row. *)
Fixpoint recordsFor (rows : list (string * list ProofRecord.t)) (hash : string)
  : list ProofRecord.t :=
  match rows with
  | [] => []
  | (h, records) :: rows' =>
      if decide (h = hash) then records else recordsFor rows' hash
  end.

(** A lookup that always succeeds and answers from a table. *)
Definition answering (rows : list (string * list ProofRecord.t))
  : nat -> string -> LookupReply :=
  fun _ hash => Resolves true (Some (recordsFor rows hash)).

Definition chainStore : nat -> string -> LookupReply :=
  answering [("h1", [parent])].

Definition emptyStore : nat -> string -> LookupReply :=
  answering [].

Definition parentlessStore : nat -> string -> LookupReply :=
  answering [("h1", [parentless])].

Definition unrelatedStore : nat -> string -> LookupReply :=
  answering [("h1", [unrelated])].

Definition cycleStore : nat -> string -> LookupReply :=
  answering [("hA", [fromB]); ("hB", [fromA])].

(** A lookup that always reports failure, and one whose promise always
    rejects. *)
Definition failing : nat -> string -> LookupReply :=
  fun _ _ => Resolves false None.

Definition rejecting : nat -> string -> LookupReply :=
  fun _ _ => Rejects.

(** The hashes [chainStore] can return as an [originalImageHash]. *)
Definition chainHashes : gset string := {[ "h0" ]}.

(** A proof that does not say what it was made from, and one that
    says so with the empty string. *)
Definition rootless : ProofRecord.t := recordOf "root" None (Some "h9").
Definition rootlessEmpty : ProofRecord.t := recordOf "root" (Some "") (Some "h9").

(** A webpack configuration with one experiment switched on and no
    output section, its values written as strings. *)
Definition webpackDefaults : @NextConfig.Config string unit :=
  NextConfig.MkConfig (Some {[ "topLevelAwait" := "true" ]}) None tt.

Definition showBoolean (b : bool) : string := if b then "true" else "false".

(** The lineage of [current] over [chainStore]. *)
Definition chainLineage : list LineageNode.t :=
  [LineageNode.mk current 0 None;
   LineageNode.mk parent 1 None;
   LineageNode.mk (createOrphanProof "h0" "Private Image") 2 (Some true)].

End Scenario.

Section Walker.

(** The lookup collaborator: the reply to call number [k] (counting from
    0) when it is asked about [hash]. *)
Variable findProofsByHash : nat -> string -> LookupReply.

(** One pass through the body of [while (currentHash)].  The source's
    three-way [if] on [parentProof] has the test
    [parentProof && parentProof.originalImageHash] in both of its first
    two arms, which differ only in [visitedHashes.has]; it is written
    here as nested matches with the same three outcomes.  [foundParent]
    is reset to [false] when the pass starts, so it is [false] in every
    exit that does not set it. *)
Definition loopBody (st : WalkState) : Step :=
  let asked := queried st ++ [currentHash st] in
  match findProofsByHash (length (queried st)) (currentHash st) with
  | Rejects => Throw asked
  | Resolves success data =>
      match usableData success data with
      | Some records =>
          match findParent (currentHash st) records with
          | Some parentProof =>
              match truthy (ProofRecord.originalImageHash parentProof) with
              | Some original =>
                  if decide (original ∈ visitedHashes st) then
                    (* seen before: added as the last node *)
                    Break (MkWalk
                             (lineageNodes st ++ [orphanNode parentProof (level st)])
                             (visitedHashes st) (currentHash st) (level st)
                             true asked)
                  else
                    (* a new parent: push, mark, move on *)
                    Continue (MkWalk
                                (lineageNodes st ++ [plainNode parentProof (level st)])
                                (addHash (ProofRecord.transformedImageHash parentProof)
                                         ({[ original ]} ∪ visitedHashes st))
                                original (S (level st)) true asked)
              | None =>
                  Break (MkWalk (lineageNodes st) (visitedHashes st)
                                (currentHash st) (level st) false asked)
              end
          | None =>
              Break (MkWalk (lineageNodes st) (visitedHashes st)
                            (currentHash st) (level st) false asked)
          end
      | None =>
          if decide (currentHash st = "") then
            Break (MkWalk (lineageNodes st) (visitedHashes st)
                          (currentHash st) (level st) false asked)
          else
            Break (MkWalk
                     (lineageNodes st ++
                        [orphanNode (createOrphanProof (currentHash st) "Private Image")
                                    (level st)])
                     (visitedHashes st) (currentHash st) (level st) true asked)
      end
  end.

(** [while (currentHash) { ... }]. *)
Fixpoint loop (fuel : nat) (st : WalkState) : option LoopExit :=
  if decide (currentHash st = "") then Some (Exited st)
  else
    match fuel with
    | O => None
    | S fuel' =>
        match loopBody st with
        | Continue st' => loop fuel' st'
        | Break st' => Some (Exited st')
        | Throw asked => Some (Thrown asked)
        end
    end.

(** The loop from a given state, followed by the code after it. *)
Definition walkFrom (fuel : nat) (st : WalkState) : option Traversal :=
  match loop fuel st with
  | Some (Exited st') =>
      Some (Fulfilled (foundParent st') (backfill st') (visitedHashes st') (queried st'))
  | Some (Thrown asked) => Some (Rejected asked)
  | None => None
  end.

(** The state in which the loop is entered. *)
Definition enter (nodes : list LineageNode.t) (visited : gset string)
    (startHash : string) : WalkState :=
  MkWalk nodes visited startHash 1 false [].

(** [traverseLineage(lineageNodes, visitedHashes, startHash)]. *)
Definition traverseLineage (fuel : nat) (nodes : list LineageNode.t)
    (visited : gset string) (startHash : option string) : option Traversal :=
  match truthy startHash with
  | None => Some (Fulfilled false nodes visited [])
  | Some h => walkFrom fuel (enter nodes visited h)
  end.

(** The arguments [fetchLineage] builds for [traverseLineage]. *)
Definition startNodes (currentProof : ProofRecord.t) : list LineageNode.t :=
  [plainNode currentProof 0].

Definition startVisited (currentProof : ProofRecord.t) : gset string :=
  addHash (ProofRecord.transformedImageHash currentProof)
          (addHash (ProofRecord.originalImageHash currentProof) ∅).

(** [fetchLineage] inside [useImageLineage], run on the hook state
    [prev]: the hashes it asked about, and the hook state once the
    [finally] block has run.  The run is taken alone here, with no other
    run of the effect acting on the hook meanwhile; [fetchLineageCalls]
    below gives the setter calls of a run without that assumption. *)
Definition fetchLineage (fuel : nat) (prev : HookState) (currentProof : ProofRecord.t)
  : option (list string * HookState) :=
  match traverseLineage fuel (startNodes currentProof) (startVisited currentProof)
                        (ProofRecord.originalImageHash currentProof) with
  | Some (Fulfilled _ nodes _ asked) => Some (asked, MkHook nodes false None)
  | Some (Rejected asked) =>
      Some (asked, MkHook (lineage prev) false (Some "Failed to load image lineage"))
  | None => None
  end.

(** The setter calls of one run of [fetchLineage]: [setLoading(true)]
    and [setError(null)] on entry; after the walk, [setLineage] with the
    list, or [setError] with the message from the [catch] block; in both
    cases [setLoading(false)] from the [finally] block.  The call of
    [console.error] in the [catch] block does not act on the hook. *)
Definition fetchLineageCalls (fuel : nat) (currentProof : ProofRecord.t) : option Run :=
  match traverseLineage fuel (startNodes currentProof) (startVisited currentProof)
                        (ProofRecord.originalImageHash currentProof) with
  | Some (Fulfilled _ nodes _ asked) =>
      Some (MkRun asked [SetLoading true; SetError None]
                  [SetLineage nodes; SetLoading false])
  | Some (Rejected asked) =>
      Some (MkRun asked [SetLoading true; SetError None]
                  [SetError (Some "Failed to load image lineage"); SetLoading false])
  | None => None
  end.

(** The hook state on the first render: [useState([])], [useState(true)],
    [useState(null)]. *)
Definition mounted : HookState := MkHook [] true None.

Definition useImageLineage (fuel : nat) (currentProof : ProofRecord.t)
  : option (list string * HookState) :=
  fetchLineage fuel mounted currentProof.

(** ** One pass through the loop body, case by case *)

(** The reply the pass at [st] gets. *)
Definition replyAt (st : WalkState) : LookupReply :=
  findProofsByHash (length (queried st)) (currentHash st).

(** The log once the pass at [st] has made its call. *)
Definition askedAt (st : WalkState) : list string :=
  queried st ++ [currentHash st].

(** The three ways a pass can leave the loop with the hash still set. *)
Inductive Terminal (st : WalkState) : WalkState -> Prop :=
| term_seen success data records parentProof original :
    replyAt st = Resolves success data ->
    usableData success data = Some records ->
    findParent (currentHash st) records = Some parentProof ->
    truthy (ProofRecord.originalImageHash parentProof) = Some original ->
    original ∈ visitedHashes st ->
    Terminal st (MkWalk (lineageNodes st ++ [orphanNode parentProof (level st)])
                        (visitedHashes st) (currentHash st) (level st)
                        true (askedAt st))
| term_dangling success data records :
    replyAt st = Resolves success data ->
    usableData success data = Some records ->
    match findParent (currentHash st) records with
    | Some parentProof => truthy (ProofRecord.originalImageHash parentProof) = None
    | None => True
    end ->
    Terminal st (MkWalk (lineageNodes st) (visitedHashes st)
                        (currentHash st) (level st) false (askedAt st))
| term_private success data :
    replyAt st = Resolves success data ->
    usableData success data = None ->
    Terminal st (MkWalk (lineageNodes st ++
                           [orphanNode (createOrphanProof (currentHash st) "Private Image")
                                       (level st)])
                        (visitedHashes st) (currentHash st) (level st)
                        true (askedAt st)).

(** ** The states the loop passes through *)

(** [reachable currentProof n st]: after [n] passes that all continued,
    the loop started by [fetchLineage] on [currentProof] is at [st]. *)
Inductive reachable (currentProof : ProofRecord.t) : nat -> WalkState -> Prop :=
| reach_enter startHash :
    truthy (ProofRecord.originalImageHash currentProof) = Some startHash ->
    reachable currentProof 0
              (enter (startNodes currentProof) (startVisited currentProof) startHash)
| reach_step n st st' :
    reachable currentProof n st ->
    loopBody st = Continue st' ->
    reachable currentProof (S n) st'.

(** What holds of every state the loop passes through. *)
Record WalkInv (currentProof : ProofRecord.t) (st : WalkState) : Prop := {
  inv_hash : currentHash st <> "";
  inv_head : exists rest, lineageNodes st = plainNode currentProof 0 :: rest;
  inv_level : level st = length (lineageNodes st);
  inv_levels : forall i n, lineageNodes st !! i = Some n -> LineageNode.level n = i;
  inv_plain : Forall (fun n => LineageNode.isOrphan n = None) (lineageNodes st);
  inv_last : exists n, last (lineageNodes st) = Some n /\
               ProofRecord.originalImageHash (LineageNode.proof n) = Some (currentHash st);
  inv_visited : forall n h, n ∈ lineageNodes st ->
               ProofRecord.originalImageHash (LineageNode.proof n) = Some h ->
               h ∈ visitedHashes st;
  inv_distinct : forall i j ni nj h,
               lineageNodes st !! i = Some ni -> lineageNodes st !! j = Some nj ->
               ProofRecord.originalImageHash (LineageNode.proof ni) = Some h ->
               ProofRecord.originalImageHash (LineageNode.proof nj) = Some h ->
               i = j;
  inv_calls : forall k h, queried st !! k = Some h -> findProofsByHash k h <> Rejects
}.

(** ** How the nodes of the list hang together *)

(** [carries nodes h]: [h] is the (non-empty) original or transformed
    hash of one of [nodes]. *)
Definition carries (nodes : list LineageNode.t) (h : string) : Prop :=
  exists node, node ∈ nodes /\
    (truthy (ProofRecord.originalImageHash (LineageNode.proof node)) = Some h \/
     truthy (ProofRecord.transformedImageHash (LineageNode.proof node)) = Some h).

(** What holds, beyond [WalkInv], of every state the loop passes
    through: the log and the list advance together, each node after the
    first was returned by the lookup for its predecessor's hash, and the
    visited set is exactly the set of hashes the list carries. *)
Record ChainInv (st : WalkState) : Prop := {
  chain_asked : length (queried st) + 1 = length (lineageNodes st);
  chain_hash : forall k h, queried st !! k = Some h ->
      exists node, lineageNodes st !! k = Some node /\
        ProofRecord.originalImageHash (LineageNode.proof node) = Some h;
  chain_link : forall i node node',
      lineageNodes st !! i = Some node -> lineageNodes st !! S i = Some node' ->
      exists h records,
        ProofRecord.originalImageHash (LineageNode.proof node) = Some h /\
        queried st !! i = Some h /\
        findProofsByHash i h = Resolves true (Some records) /\
        LineageNode.proof node' ∈ records /\
        ProofRecord.transformedImageHash (LineageNode.proof node') = Some h;
  chain_visited : forall h, h ∈ visitedHashes st <-> carries (lineageNodes st) h;
  chain_fresh : forall i j ni nj h,
      i <= j -> 0 < j ->
      lineageNodes st !! i = Some ni -> lineageNodes st !! j = Some nj ->
      ProofRecord.originalImageHash (LineageNode.proof nj) = Some h ->
      ProofRecord.transformedImageHash (LineageNode.proof ni) <> Some h
}.

(** The node a run ends with, by what the last reply held. *)
Inductive FinalNode (st : WalkState) : LineageNode.t -> Prop :=
| final_seen records p original :
    replyAt st = Resolves true (Some records) ->
    findParent (currentHash st) records = Some p ->
    truthy (ProofRecord.originalImageHash p) = Some original ->
    original ∈ visitedHashes st ->
    FinalNode st (orphanNode p (level st))
| final_unknown records :
    replyAt st = Resolves true (Some records) ->
    records <> [] ->
    (forall p, findParent (currentHash st) records = Some p ->
               truthy (ProofRecord.originalImageHash p) = None) ->
    FinalNode st (orphanNode (createOrphanProof (currentHash st) "Unknown Parent Image")
                             (level st))
| final_private success data :
    replyAt st = Resolves success data ->
    usableData success data = None ->
    FinalNode st (orphanNode (createOrphanProof (currentHash st) "Private Image")
                             (level st)).

(** ** Elementary facts about the helpers *)

Lemma truthy_Some o h : truthy o = Some h -> o = Some h /\ h <> "".
Proof.
  destruct o as [s|]; simpl; [|discriminate].
  destruct (decide (s = "")); [discriminate|].
  intros [= <-]. auto.
Qed.

Lemma truthy_present h : h <> "" -> truthy (Some h) = Some h.
Proof. intros Hne. simpl. destruct (decide (h = "")); [contradiction|reflexivity]. Qed.

Lemma addHash_grows o visited : visited ⊆ addHash o visited.
Proof. unfold addHash. destruct (truthy o); set_solver. Qed.

Lemma addHash_elem o visited h : o = Some h -> h <> "" -> h ∈ addHash o visited.
Proof.
  intros -> Hne. unfold addHash. rewrite truthy_present by assumption. set_solver.
Qed.

Lemma usableData_Some success data records :
  usableData success data = Some records ->
  success = true /\ data = Some records /\ records <> [].
Proof.
  destruct success, data as [[|r rs]|]; simpl; try discriminate.
  intros [= <-]. auto.
Qed.

Lemma usableData_nonempty r rs : usableData true (Some (r :: rs)) = Some (r :: rs).
Proof. reflexivity. Qed.

Lemma findParent_Some hash data p :
  findParent hash data = Some p ->
  p ∈ data /\ ProofRecord.transformedImageHash p = Some hash.
Proof.
  unfold findParent. intros Hfind.
  apply find_some in Hfind as [Hin Hdec].
  apply bool_decide_eq_true in Hdec.
  split; [by apply list_elem_of_In|assumption].
Qed.

Lemma findParent_None hash data :
  Forall (fun p => ProofRecord.transformedImageHash p <> Some hash) data ->
  findParent hash data = None.
Proof.
  unfold findParent. induction 1 as [|p data Hp _ IH]; simpl; [reflexivity|].
  rewrite bool_decide_eq_false_2 by assumption. exact IH.
Qed.

Lemma findParent_head hash p data :
  ProofRecord.transformedImageHash p = Some hash ->
  findParent hash (p :: data) = Some p.
Proof.
  intros Hp. unfold findParent. simpl. by rewrite bool_decide_eq_true_2.
Qed.

(** ** Inversion of one pass *)

Lemma loopBody_Continue st st' :
  loopBody st = Continue st' ->
  exists success data records parentProof original,
    replyAt st = Resolves success data /\
    usableData success data = Some records /\
    findParent (currentHash st) records = Some parentProof /\
    truthy (ProofRecord.originalImageHash parentProof) = Some original /\
    (original ∉ visitedHashes st) /\
    st' = MkWalk (lineageNodes st ++ [plainNode parentProof (level st)])
                 (addHash (ProofRecord.transformedImageHash parentProof)
                          ({[ original ]} ∪ visitedHashes st))
                 original (S (level st)) true (askedAt st).
Proof.
  unfold loopBody, replyAt, askedAt. intros Hbody.
  repeat case_match; simplify_eq. eauto 12.
Qed.

Lemma loopBody_Break st st' :
  currentHash st <> "" ->
  loopBody st = Break st' ->
  Terminal st st'.
Proof.
  unfold loopBody. intros Hhash Hbody.
  destruct (findProofsByHash _ _) as [|success data] eqn:Hreply; [discriminate|].
  destruct (usableData success data) as [records|] eqn:Huse.
  - destruct (findParent _ records) as [parentProof|] eqn:Hfind.
    + destruct (truthy _) as [original|] eqn:Horig.
      * destruct (decide (original ∈ _)); simplify_eq.
        eapply term_seen; eauto.
      * simplify_eq. eapply term_dangling; eauto. by rewrite Hfind.
    + simplify_eq. eapply term_dangling; eauto. by rewrite Hfind.
  - destruct (decide (currentHash st = "")); [contradiction|].
    simplify_eq. eapply term_private; eauto.
Qed.

Lemma loopBody_Throw st asked :
  loopBody st = Throw asked ->
  replyAt st = Rejects /\ asked = askedAt st.
Proof.
  unfold loopBody, replyAt, askedAt. intros Hbody.
  repeat case_match; simplify_eq. auto.
Qed.

Lemma loopBody_rejects st :
  replyAt st = Rejects -> loopBody st = Throw (askedAt st).
Proof. unfold loopBody, replyAt, askedAt. by intros ->. Qed.

Lemma WalkInv_enter currentProof startHash :
  truthy (ProofRecord.originalImageHash currentProof) = Some startHash ->
  WalkInv currentProof
          (enter (startNodes currentProof) (startVisited currentProof) startHash).
Proof.
  intros Hstart. pose proof (truthy_Some _ _ Hstart) as [Horig Hne].
  split; simpl.
  - assumption.
  - by exists [].
  - reflexivity.
  - intros [|i] n; simpl; [by intros [= <-]|discriminate].
  - by repeat constructor.
  - eexists. split; [reflexivity|]. exact Horig.
  - intros n h Hin Hh. apply list_elem_of_singleton in Hin as ->. simpl in Hh.
    unfold startVisited. apply addHash_grows.
    rewrite Horig in Hh. injection Hh as <-. by apply addHash_elem.
  - intros [|i] [|j] ni nj h; simpl; try discriminate. auto.
  - intros k h. by rewrite lookup_nil.
Qed.


Lemma WalkInv_step currentProof st st' :
  WalkInv currentProof st ->
  loopBody st = Continue st' ->
  WalkInv currentProof st'.
Proof.
  intros Inv Hbody.
  apply loopBody_Continue in Hbody
    as (success & data & records & p & original & Hreply & _ & _ & Horig & Hnew & ->).
  apply truthy_Some in Horig as [Horig Hne].
  destruct Inv as [Hhash [rest Hhead] Hlevel Hlevels Hplain [lastNode [Hlast HlastHash]]
                     Hvisited Hdistinct Hcalls].
  assert (Hfresh : forall n, n ∈ lineageNodes st ->
            ProofRecord.originalImageHash (LineageNode.proof n) <> Some original).
  { intros n Hin Hn. apply Hnew. eauto. }
  split; simpl.
  - assumption.
  - exists (rest ++ [plainNode p (level st)]). by rewrite Hhead.
  - rewrite length_app. simpl. lia.
  - intros i n Hi. apply lookup_app_Some in Hi as [Hi|[Hge Hi]]; [eauto|].
    apply list_lookup_singleton_Some in Hi as [Hi <-]. simpl. lia.
  - apply Forall_app. split; [assumption|]. by repeat constructor.
  - exists (plainNode p (level st)). by rewrite last_snoc.
  - intros n h Hin Hh. apply addHash_grows.
    apply elem_of_app in Hin as [Hin|Hin].
    + apply elem_of_union_r. eauto.
    + apply list_elem_of_singleton in Hin as ->. simpl in Hh.
      rewrite Horig in Hh. injection Hh as <-. set_solver.
  - intros i j ni nj h Hi Hj Hni Hnj.
    apply lookup_app_Some in Hi as [Hi|[Hige Hi]];
      apply lookup_app_Some in Hj as [Hj|[Hjge Hj]].
    + eauto.
    + apply list_lookup_singleton_Some in Hj as [_ <-]. simpl in Hnj.
      exfalso. apply (Hfresh ni); [by eapply list_elem_of_lookup_2|congruence].
    + apply list_lookup_singleton_Some in Hi as [_ <-]. simpl in Hni.
      exfalso. apply (Hfresh nj); [by eapply list_elem_of_lookup_2|congruence].
    + apply list_lookup_singleton_Some in Hi as [Hi _].
      apply list_lookup_singleton_Some in Hj as [Hj _]. lia.
  - intros k h Hk. unfold askedAt in Hk.
    apply lookup_app_Some in Hk as [Hk|[Hge Hk]]; [eauto|].
    apply list_lookup_singleton_Some in Hk as [Hk <-].
    replace k with (length (queried st)) by lia.
    unfold replyAt in Hreply. by rewrite Hreply.
Qed.

Lemma reachable_inv currentProof n st :
  reachable currentProof n st -> WalkInv currentProof st.
Proof.
  induction 1 as [startHash Hstart|n st st' _ IH Hbody].
  - by apply WalkInv_enter.
  - by eapply WalkInv_step.
Qed.

(** The number of passes made is the number of calls made, and one less
    than the level the next node would get. *)
Lemma reachable_count currentProof n st :
  reachable currentProof n st -> length (queried st) = n /\ level st = S n.
Proof.
  induction 1 as [startHash Hstart|n st st' _ [IHq IHl] Hbody]; [by split|].
  apply loopBody_Continue in Hbody as (?&?&?&?&?&_&_&_&_&_&->).
  simpl. unfold askedAt. rewrite length_app. simpl. lia.
Qed.

(** ** Running the loop *)

Lemma loop_unfold fuel st :
  currentHash st <> "" ->
  loop (S fuel) st =
    match loopBody st with
    | Continue st' => loop fuel st'
    | Break st' => Some (Exited st')
    | Throw asked => Some (Thrown asked)
    end.
Proof. intros Hne. simpl. by destruct (decide (currentHash st = "")). Qed.

(** A state reached after [n] passes is where the loop is once it has
    used [n] units of fuel. *)
Lemma loop_reach currentProof n st startHash fuel :
  reachable currentProof n st ->
  truthy (ProofRecord.originalImageHash currentProof) = Some startHash ->
  loop (n + fuel) (enter (startNodes currentProof) (startVisited currentProof) startHash)
  = loop fuel st.
Proof.
  intros Hreach. revert fuel.
  induction Hreach as [h Hh|n st st' Hreach IH Hbody]; intros fuel Hstart.
  - rewrite Hh in Hstart. by injection Hstart as ->.
  - replace (S n + fuel) with (n + S fuel) by lia.
    rewrite IH by assumption.
    rewrite loop_unfold by (by eapply inv_hash, reachable_inv).
    by rewrite Hbody.
Qed.

(** More fuel does not change the way a loop that ended ends. *)
Lemma loop_more_fuel fuel fuel' st exit :
  loop fuel st = Some exit -> fuel <= fuel' -> loop fuel' st = Some exit.
Proof.
  revert fuel' st. induction fuel as [|fuel IH]; intros fuel' st Hloop Hle.
  - simpl in Hloop. destruct (decide (currentHash st = "")) as [Hempty|]; [|discriminate].
    destruct fuel'; simpl; by rewrite decide_True.
  - destruct fuel' as [|fuel']; [lia|].
    simpl in *. destruct (decide (currentHash st = "")); [assumption|].
    destruct (loopBody st); [|assumption..].
    apply IH; [assumption|lia].
Qed.

(** A loop that ended normally did so by a [break] out of a pass that
    started in a reachable state. *)
Lemma loop_exited currentProof n st fuel st' :
  reachable currentProof n st ->
  loop fuel st = Some (Exited st') ->
  exists m st0, reachable currentProof m st0 /\ Terminal st0 st'.
Proof.
  revert n st. induction fuel as [|fuel IH]; intros n st Hreach Hloop.
  - simpl in Hloop.
    destruct (decide (currentHash st = "")) as [Hempty|]; [|discriminate].
    by apply (inv_hash _ _ (reachable_inv _ _ _ Hreach)) in Hempty.
  - pose proof (inv_hash _ _ (reachable_inv _ _ _ Hreach)) as Hne.
    rewrite loop_unfold in Hloop by assumption.
    destruct (loopBody st) as [st1|st1|asked] eqn:Hbody.
    + eapply IH; [|exact Hloop]. by eapply reach_step.
    + injection Hloop as <-. exists n, st. split; [assumption|].
      by apply loopBody_Break.
    + discriminate.
Qed.

(** ** The code after the loop *)

Lemma backfill_found st : foundParent st = true -> backfill st = lineageNodes st.
Proof. unfold backfill. intros ->. by destruct (last (lineageNodes st)). Qed.

(** When a reachable pass leaves without a parent, the placeholder is
    for the hash that pass asked about, at the level that pass would
    have used. *)
Lemma backfill_dangling currentProof n st visited hash lvl asked :
  reachable currentProof n st ->
  backfill (MkWalk (lineageNodes st) visited hash lvl false asked)
  = lineageNodes st ++
      [orphanNode (createOrphanProof (currentHash st) "Unknown Parent Image") (level st)].
Proof.
  intros Hreach. pose proof (reachable_inv _ _ _ Hreach) as Inv.
  destruct (inv_last _ _ Inv) as (lastNode & Hlast & HlastHash).
  unfold backfill. simpl. rewrite Hlast, HlastHash.
  rewrite truthy_present by apply (inv_hash _ _ Inv).
  do 3 f_equal.
  rewrite last_lookup in Hlast.
  pose proof (lookup_lt_Some _ _ _ Hlast) as Hlt.
  rewrite (inv_levels _ _ Inv _ _ Hlast), (inv_level _ _ Inv). lia.
Qed.

(** Every way out of the loop leaves exactly one flagged node behind the
    nodes of the pass it left from. *)
Lemma Terminal_backfill currentProof n st st' :
  reachable currentProof n st ->
  Terminal st st' ->
  exists p, backfill st' = lineageNodes st ++ [orphanNode p (level st)].
Proof.
  intros Hreach [success data records p original _ _ _ _ _
                |success data records _ _ _
                |success data _ _].
  - exists p. by rewrite backfill_found.
  - eexists. by eapply backfill_dangling.
  - eexists. by rewrite backfill_found.
Qed.

Lemma Terminal_asked st st' : Terminal st st' -> queried st' = askedAt st.
Proof. by intros []. Qed.

(** ** Completed runs of [fetchLineage] *)

(** A run that set no error either had no hash to start from, or left
    the loop from a reachable pass. *)
Lemma fetchLineage_fulfilled fuel prev currentProof asked hook :
  fetchLineage fuel prev currentProof = Some (asked, hook) ->
  error hook = None ->
  (truthy (ProofRecord.originalImageHash currentProof) = None /\
   asked = [] /\ lineage hook = startNodes currentProof)
  \/ (exists n st st', reachable currentProof n st /\ Terminal st st' /\
        asked = askedAt st /\ lineage hook = backfill st').
Proof.
  unfold fetchLineage, traverseLineage, walkFrom. intros Hrun Herr.
  destruct (truthy _) as [startHash|] eqn:Hstart.
  - destruct (loop _ _) as [[st'|asked']|] eqn:Hloop; simplify_eq/=.
    right. eapply loop_exited in Hloop as (m & st0 & Hreach & Hterm);
      [|by apply reach_enter].
    exists m, st0, st'. by rewrite (Terminal_asked _ _ Hterm).
  - left. by simplify_eq/=.
Qed.

(** The list a completed run hands to [setLineage]: the starting node
    alone, or the unflagged nodes of a reachable pass followed by one
    flagged node at that pass's level. *)
Lemma fetchLineage_shape fuel prev currentProof asked hook :
  fetchLineage fuel prev currentProof = Some (asked, hook) ->
  error hook = None ->
  lineage hook = startNodes currentProof
  \/ (exists n st p, reachable currentProof n st /\
        lineage hook = lineageNodes st ++ [orphanNode p (level st)]).
Proof.
  intros Hrun Herr.
  destruct (fetchLineage_fulfilled _ _ _ _ _ Hrun Herr)
    as [(_ & _ & Hnodes)|(n & st & st' & Hreach & Hterm & _ & Hnodes)]; [by left|].
  right. destruct (Terminal_backfill _ _ _ _ Hreach Hterm) as [p Hp].
  exists n, st, p. by rewrite Hnodes.
Qed.

(** ** Invariants of the returned list *)

(** C7. Whenever the computation completes, no hash is the
    [originalImageHash] of two different unflagged nodes of the returned
    list. *)
Theorem no_duplicate_ancestors fuel prev currentProof asked hook :
  fetchLineage fuel prev currentProof = Some (asked, hook) ->
  error hook = None ->
  forall i j ni nj h,
    lineage hook !! i = Some ni -> lineage hook !! j = Some nj ->
    flagged ni = false -> flagged nj = false ->
    ProofRecord.originalImageHash (LineageNode.proof ni) = Some h ->
    ProofRecord.originalImageHash (LineageNode.proof nj) = Some h ->
    i = j.
Proof.
  intros Hrun Herr i j ni nj h Hi Hj Fi Fj Hni Hnj.
  destruct (fetchLineage_shape _ _ _ _ _ Hrun Herr)
    as [Hnodes|(n & st & p & Hreach & Hnodes)]; rewrite Hnodes in Hi, Hj.
  - apply list_lookup_singleton_Some in Hi as [-> _].
    by apply list_lookup_singleton_Some in Hj as [-> _].
  - pose proof (reachable_inv _ _ _ Hreach) as Inv.
    apply lookup_app_Some in Hi as [Hi|[_ Hi]].
    + apply lookup_app_Some in Hj as [Hj|[_ Hj]].
      * by apply (inv_distinct _ _ Inv i j ni nj h).
      * apply list_lookup_singleton_Some in Hj as [_ <-]. discriminate.
    + apply list_lookup_singleton_Some in Hi as [_ <-]. discriminate.
Qed.

(** C9. Whenever the computation completes, the returned list begins
    with the starting proof, unchanged, at level 0 and without the
    orphan flag; and that entry is already in place, at the head, in
    every state the loop passes through. *)
Theorem starts_with_current_proof fuel prev currentProof asked hook :
  fetchLineage fuel prev currentProof = Some (asked, hook) ->
  error hook = None ->
  (exists rest, lineage hook = LineageNode.mk currentProof 0 None :: rest) /\
  (forall n st, reachable currentProof n st ->
     exists rest, lineageNodes st = LineageNode.mk currentProof 0 None :: rest).
Proof.
  intros Hrun Herr. split.
  - destruct (fetchLineage_shape _ _ _ _ _ Hrun Herr)
      as [Hnodes|(n & st & p & Hreach & Hnodes)]; rewrite Hnodes.
    + by exists [].
    + destruct (inv_head _ _ (reachable_inv _ _ _ Hreach)) as [rest Hhead].
      rewrite Hhead. by eexists.
  - intros n st Hreach. exact (inv_head _ _ (reachable_inv _ _ _ Hreach)).
Qed.

(** C10. Whenever the computation completes, every node of the returned
    list but the last has no orphan flag, so at most one node has it
    and that node is the last. *)
Theorem orphan_only_last fuel prev currentProof asked hook :
  fetchLineage fuel prev currentProof = Some (asked, hook) ->
  error hook = None ->
  (forall i node, lineage hook !! i = Some node ->
     S i < length (lineage hook) -> LineageNode.isOrphan node = None) /\
  (forall i j ni nj,
     lineage hook !! i = Some ni -> lineage hook !! j = Some nj ->
     LineageNode.isOrphan ni <> None -> LineageNode.isOrphan nj <> None ->
     i = j).
Proof.
  intros Hrun Herr.
  assert (Hinner : forall i node, lineage hook !! i = Some node ->
            S i < length (lineage hook) -> LineageNode.isOrphan node = None).
  { intros i node Hi Hlt.
    destruct (fetchLineage_shape _ _ _ _ _ Hrun Herr)
      as [Hnodes|(n & st & p & Hreach & Hnodes)]; rewrite Hnodes in Hi, Hlt.
    - simpl in Hlt. lia.
    - rewrite length_app in Hlt. simpl in Hlt.
      apply lookup_app_Some in Hi as [Hi|[Hge _]]; [|lia].
      pose proof (inv_plain _ _ (reachable_inv _ _ _ Hreach)) as Hplain.
      rewrite Forall_lookup in Hplain. eauto. }
  split; [exact Hinner|].
  intros i j ni nj Hi Hj Fi Fj.
  pose proof (lookup_lt_Some _ _ _ Hi) as Hilt.
  pose proof (lookup_lt_Some _ _ _ Hj) as Hjlt.
  destruct (decide (S i < length (lineage hook))) as [Hlt|Hge];
    [by apply (Hinner _ _ Hi) in Hlt|].
  destruct (decide (S j < length (lineage hook))) as [Hlt|Hge'];
    [by apply (Hinner _ _ Hj) in Hlt|].
  lia.
Qed.

(** ** Termination over a finite store *)

(** A pass that continues marks a hash that was not marked before, and
    moves to it. *)
Lemma Continue_marks st st' :
  loopBody st = Continue st' ->
  visitedHashes st ⊂ visitedHashes st' /\
  currentHash st' ∈ visitedHashes st' /\
  currentHash st' ∉ visitedHashes st.
Proof.
  intros Hbody.
  apply loopBody_Continue in Hbody as (?&?&?& p & original &_&_&_&_& Hnew & ->).
  simpl.
  pose proof (addHash_grows (ProofRecord.transformedImageHash p)
                            ({[ original ]} ∪ visitedHashes st)) as Hgrow.
  set_solver.
Qed.

Section FiniteStore.

(** The hashes that can come back as the [originalImageHash] of a
    record, whatever is asked and whenever. *)
Variable store : gset string.

Hypothesis store_closed :
  forall k hash success records p original,
    findProofsByHash k hash = Resolves success (Some records) ->
    p ∈ records ->
    ProofRecord.originalImageHash p = Some original ->
    original ∈ store.

Lemma Continue_in_store st st' :
  loopBody st = Continue st' -> currentHash st' ∈ store.
Proof.
  intros Hbody.
  apply loopBody_Continue in Hbody
    as (success & data & records & p & original & Hreply & Huse & Hfind & Horig & _ & ->).
  apply usableData_Some in Huse as (_ & -> & _).
  apply findParent_Some in Hfind as [Hin _].
  apply truthy_Some in Horig as [Horig _].
  simpl. eapply store_closed; eauto.
Qed.

(** The loop ends within as many passes as there are store hashes not
    yet marked, plus one. *)
Lemma loop_terminates fuel st :
  size (store ∖ visitedHashes st) < fuel -> is_Some (loop fuel st).
Proof.
  revert st. induction fuel as [|fuel IH]; intros st Hsize; [lia|].
  simpl. destruct (decide (currentHash st = "")); [by eexists|].
  destruct (loopBody st) as [st'|st'|asked] eqn:Hbody; [|by eexists..].
  apply IH.
  pose proof (Continue_in_store _ _ Hbody) as Hstore.
  destruct (Continue_marks _ _ Hbody) as (Hsub & Hin & Hout).
  assert (Hless : store ∖ visitedHashes st' ⊂ store ∖ visitedHashes st).
  { destruct Hsub as [Hsub _]. split.
    - intros h [Hh Hfresh]%elem_of_difference.
      apply elem_of_difference. split; [assumption|]. intros Hold. by apply Hfresh, Hsub.
    - intros Hback. specialize (Hback (currentHash st')).
      rewrite !elem_of_difference in Hback. tauto. }
  apply subset_size in Hless. lia.
Qed.

(** C5. When every hash a lookup can return as an [originalImageHash]
    comes from one finite set, the lineage computation ends, whatever
    the starting proof, within one pass more than that set has
    elements; and every pass that continues strictly enlarges the
    visited set with the hash it moves to. *)
Theorem lineage_terminates fuel prev currentProof :
  size store < fuel ->
  (exists asked hook, fetchLineage fuel prev currentProof = Some (asked, hook)) /\
  (forall st st', loopBody st = Continue st' ->
     visitedHashes st ⊂ visitedHashes st' /\
     currentHash st' ∈ visitedHashes st' /\
     currentHash st' ∉ visitedHashes st).
Proof.
  intros Hfuel. split; [|exact Continue_marks].
  unfold fetchLineage, traverseLineage, walkFrom.
  destruct (truthy _) as [startHash|]; [|by eauto].
  assert (Hle : size (store ∖ startVisited currentProof) <= size store)
    by (apply subseteq_size; intros h [Hh _]%elem_of_difference; exact Hh).
  destruct (loop_terminates fuel
              (enter (startNodes currentProof) (startVisited currentProof) startHash))
    as [[st'|asked] ->]; [simpl; lia|by eauto..].
Qed.

End FiniteStore.

(** ** The four outcomes of a pass, from the reply it gets *)

Lemma findParent_usable hash records p :
  findParent hash records = Some p -> usableData true (Some records) = Some records.
Proof. by destruct records. Qed.

Lemma loopBody_moves st records p original :
  replyAt st = Resolves true (Some records) ->
  findParent (currentHash st) records = Some p ->
  truthy (ProofRecord.originalImageHash p) = Some original ->
  original ∉ visitedHashes st ->
  loopBody st =
    Continue (MkWalk (lineageNodes st ++ [plainNode p (level st)])
                     (addHash (ProofRecord.transformedImageHash p)
                              ({[ original ]} ∪ visitedHashes st))
                     original (S (level st)) true (askedAt st)).
Proof.
  unfold loopBody, replyAt. intros -> Hfind Horig Hnew.
  rewrite (findParent_usable _ _ _ Hfind), Hfind, Horig.
  by rewrite decide_False.
Qed.

Lemma loopBody_seen st records p original :
  replyAt st = Resolves true (Some records) ->
  findParent (currentHash st) records = Some p ->
  truthy (ProofRecord.originalImageHash p) = Some original ->
  original ∈ visitedHashes st ->
  loopBody st =
    Break (MkWalk (lineageNodes st ++ [orphanNode p (level st)])
                  (visitedHashes st) (currentHash st) (level st) true (askedAt st)).
Proof.
  unfold loopBody, replyAt. intros -> Hfind Horig Hold.
  rewrite (findParent_usable _ _ _ Hfind), Hfind, Horig.
  by rewrite decide_True.
Qed.

Lemma loopBody_unusable_parent st records p :
  replyAt st = Resolves true (Some records) ->
  findParent (currentHash st) records = Some p ->
  truthy (ProofRecord.originalImageHash p) = None ->
  loopBody st =
    Break (MkWalk (lineageNodes st) (visitedHashes st) (currentHash st) (level st)
                  false (askedAt st)).
Proof.
  unfold loopBody, replyAt. intros -> Hfind Horig.
  by rewrite (findParent_usable _ _ _ Hfind), Hfind, Horig.
Qed.

Lemma loopBody_no_parent st records :
  replyAt st = Resolves true (Some records) ->
  records <> [] ->
  findParent (currentHash st) records = None ->
  loopBody st =
    Break (MkWalk (lineageNodes st) (visitedHashes st) (currentHash st) (level st)
                  false (askedAt st)).
Proof.
  unfold loopBody, replyAt. intros -> Hne Hfind.
  destruct records as [|r rs]; [contradiction|].
  by rewrite usableData_nonempty, Hfind.
Qed.

Lemma loopBody_private st success data :
  replyAt st = Resolves success data ->
  usableData success data = None ->
  currentHash st <> "" ->
  loopBody st =
    Break (MkWalk (lineageNodes st ++
                     [orphanNode (createOrphanProof (currentHash st) "Private Image")
                                 (level st)])
                  (visitedHashes st) (currentHash st) (level st) true (askedAt st)).
Proof.
  unfold loopBody, replyAt. intros -> -> Hne. by rewrite decide_False.
Qed.

(** ** The whole run, from the pass at which it ends *)

Lemma reachable_start currentProof n st :
  reachable currentProof n st ->
  exists startHash, truthy (ProofRecord.originalImageHash currentProof) = Some startHash.
Proof. induction 1; eauto. Qed.

Lemma fetchLineage_break currentProof n st st' fuel prev :
  reachable currentProof n st ->
  loopBody st = Break st' ->
  n < fuel ->
  fetchLineage fuel prev currentProof
  = Some (queried st', MkHook (backfill st') false None).
Proof.
  intros Hreach Hbody Hfuel.
  destruct (reachable_start _ _ _ Hreach) as [startHash Hstart].
  unfold fetchLineage, traverseLineage, walkFrom. rewrite Hstart.
  replace fuel with (n + S (fuel - S n)) by lia.
  rewrite (loop_reach _ _ _ _ _ Hreach Hstart).
  rewrite loop_unfold by apply (inv_hash _ _ (reachable_inv _ _ _ Hreach)).
  by rewrite Hbody.
Qed.

Lemma fetchLineage_throw currentProof n st asked fuel prev :
  reachable currentProof n st ->
  loopBody st = Throw asked ->
  n < fuel ->
  fetchLineage fuel prev currentProof
  = Some (asked, MkHook (lineage prev) false (Some "Failed to load image lineage")).
Proof.
  intros Hreach Hbody Hfuel.
  destruct (reachable_start _ _ _ Hreach) as [startHash Hstart].
  unfold fetchLineage, traverseLineage, walkFrom. rewrite Hstart.
  replace fuel with (n + S (fuel - S n)) by lia.
  rewrite (loop_reach _ _ _ _ _ Hreach Hstart).
  rewrite loop_unfold by apply (inv_hash _ _ (reachable_inv _ _ _ Hreach)).
  by rewrite Hbody.
Qed.

(** A run that ends on a pass whose reply has no usable records. *)
Lemma fetchLineage_private currentProof n st success data fuel prev :
  reachable currentProof n st ->
  replyAt st = Resolves success data ->
  usableData success data = None ->
  n < fuel ->
  fetchLineage fuel prev currentProof
  = Some (askedAt st,
          MkHook (lineageNodes st ++
                    [orphanNode (createOrphanProof (currentHash st) "Private Image")
                                (level st)])
                 false None).
Proof.
  intros Hreach Hreply Huse Hfuel.
  pose proof (inv_hash _ _ (reachable_inv _ _ _ Hreach)) as Hne.
  rewrite (fetchLineage_break _ _ _ _ _ _ Hreach
             (loopBody_private _ _ _ Hreply Huse Hne) Hfuel).
  by rewrite backfill_found.
Qed.

(** A run that ends on a pass that found no parent to follow. *)
Lemma fetchLineage_dangling currentProof n st visited hash lvl asked fuel prev :
  reachable currentProof n st ->
  loopBody st = Break (MkWalk (lineageNodes st) visited hash lvl false asked) ->
  n < fuel ->
  fetchLineage fuel prev currentProof
  = Some (asked,
          MkHook (lineageNodes st ++
                    [orphanNode (createOrphanProof (currentHash st) "Unknown Parent Image")
                                (level st)])
                 false None).
Proof.
  intros Hreach Hbody Hfuel.
  rewrite (fetchLineage_break _ _ _ _ _ _ Hreach Hbody Hfuel).
  by rewrite (backfill_dangling _ _ _ _ _ _ _ Hreach).
Qed.

(** ** The visited set [fetchLineage] starts from *)

Lemma elem_of_addHash o visited h :
  h ∈ addHash o visited <-> truthy o = Some h \/ h ∈ visited.
Proof.
  unfold addHash. destruct (truthy o) as [h'|].
  - rewrite elem_of_union, elem_of_singleton. split.
    + intros [->|Hin]; auto.
    + intros [[= ->]|Hin]; auto.
  - split; [auto|]. by intros [?|?].
Qed.

Lemma elem_of_startVisited currentProof h :
  h ∈ startVisited currentProof <->
  truthy (ProofRecord.originalImageHash currentProof) = Some h \/
  truthy (ProofRecord.transformedImageHash currentProof) = Some h.
Proof.
  unfold startVisited. rewrite !elem_of_addHash, elem_of_empty. tauto.
Qed.

(** ** Lookup failure *)

(** C1, as the code has it. A lookup whose promise rejects fails the
    whole computation: the hook ends with its error set and its lineage
    untouched, whichever pass the rejection comes at, and a run whose
    log holds a rejected call never hands a list to [setLineage].  A
    reply with [success = false] does not fail anything: it is handled
    like a reply without records, the run ends normally with a
    "Private Image" node for the hash asked about. *)
Theorem lookup_failure currentProof fuel prev :
  (forall n st,
     reachable currentProof n st -> replyAt st = Rejects -> n < fuel ->
     fetchLineage fuel prev currentProof
     = Some (askedAt st,
             MkHook (lineage prev) false (Some "Failed to load image lineage"))) /\
  (forall asked hook,
     fetchLineage fuel prev currentProof = Some (asked, hook) ->
     (exists k h, asked !! k = Some h /\ findProofsByHash k h = Rejects) ->
     hook = MkHook (lineage prev) false (Some "Failed to load image lineage")) /\
  (forall n st data,
     reachable currentProof n st -> replyAt st = Resolves false data -> n < fuel ->
     fetchLineage fuel prev currentProof
     = Some (askedAt st,
             MkHook (lineageNodes st ++
                       [orphanNode (createOrphanProof (currentHash st) "Private Image")
                                   (level st)])
                    false None)).
Proof.
  split; [|split].
  - intros n st Hreach Hreply Hfuel.
    eapply fetchLineage_throw; eauto using loopBody_rejects.
  - intros asked hook Hrun (k & h & Hk & Hrej).
    destruct (error hook) as [msg|] eqn:Herr.
    + revert Hrun Herr. unfold fetchLineage.
      destruct (traverseLineage _ _ _ _) as [[found nodes visited asked'|asked']|];
        intros; by simplify_eq/=.
    + exfalso.
      destruct (fetchLineage_fulfilled _ _ _ _ _ Hrun Herr)
        as [(_ & -> & _)|(n & st & st' & Hreach & Hterm & -> & _)].
      * by rewrite lookup_nil in Hk.
      * unfold askedAt in Hk. apply lookup_app_Some in Hk as [Hk|[Hge Hk]].
        -- by apply (inv_calls _ _ (reachable_inv _ _ _ Hreach) k h).
        -- apply list_lookup_singleton_Some in Hk as [Hk <-].
           replace k with (length (queried st)) in Hrej by lia.
           assert (Hreply : replyAt st = Rejects) by exact Hrej.
           destruct Hterm; congruence.
  - intros n st data Hreach Hreply Hfuel.
    eapply fetchLineage_private; eauto.
Qed.

(** ** A producer that cannot be followed *)

(** C2, as the code has it. On a pass whose reply holds a record
    produced from the current hash (the first such record is the one
    taken): when that record's [originalImageHash] is already in the
    visited set, the record itself is appended with the orphan flag, at
    the level one past the last node, and the run ends there; when its
    [originalImageHash] is absent or empty, the record is not appended:
    the run ends with an "Unknown Parent Image" placeholder for the
    current hash at that same level. *)
Theorem producer_terminal currentProof n st records p fuel prev :
  reachable currentProof n st ->
  replyAt st = Resolves true (Some records) ->
  findParent (currentHash st) records = Some p ->
  n < fuel ->
  (forall original,
     truthy (ProofRecord.originalImageHash p) = Some original ->
     original ∈ visitedHashes st ->
     fetchLineage fuel prev currentProof
     = Some (askedAt st,
             MkHook (lineageNodes st ++ [orphanNode p (level st)]) false None)) /\
  (truthy (ProofRecord.originalImageHash p) = None ->
   fetchLineage fuel prev currentProof
   = Some (askedAt st,
           MkHook (lineageNodes st ++
                     [orphanNode (createOrphanProof (currentHash st) "Unknown Parent Image")
                                 (level st)])
                  false None)) /\
  level st = length (lineageNodes st).
Proof.
  intros Hreach Hreply Hfind Hfuel. split; [|split].
  - intros original Horig Hold.
    rewrite (fetchLineage_break _ _ _ _ _ _ Hreach
               (loopBody_seen _ _ _ _ Hreply Hfind Horig Hold) Hfuel).
    by rewrite backfill_found.
  - intros Horig.
    by rewrite (fetchLineage_dangling _ _ _ _ _ _ _ _ _ Hreach
                  (loopBody_unusable_parent _ _ _ Hreply Hfind Horig) Hfuel).
  - apply (inv_level _ _ (reachable_inv _ _ _ Hreach)).
Qed.

(** ** The scenarios of the specification *)

(** C3, as the code has it. When the first lookup, for the starting
    proof's hash, returns records none of which was produced from that
    hash, the result is the starting node followed by an "Unknown Parent
    Image" placeholder for that same hash at level 1, after that single
    lookup. *)
Theorem dangling_edge currentProof hash records fuel prev :
  ProofRecord.originalImageHash currentProof = Some hash ->
  hash <> "" ->
  findProofsByHash 0 hash = Resolves true (Some records) ->
  records <> [] ->
  Forall (fun p => ProofRecord.transformedImageHash p <> Some hash) records ->
  0 < fuel ->
  fetchLineage fuel prev currentProof
  = Some ([hash],
          MkHook [LineageNode.mk currentProof 0 None;
                  LineageNode.mk (createOrphanProof hash "Unknown Parent Image") 1
                                 (Some true)]
                 false None).
Proof.
  intros Horig Hne Hreply Hrecords Hnone Hfuel.
  assert (Hstart : truthy (ProofRecord.originalImageHash currentProof) = Some hash)
    by (rewrite Horig; by apply truthy_present).
  pose proof (reach_enter currentProof hash Hstart) as Hreach.
  set (st := enter (startNodes currentProof) (startVisited currentProof) hash) in *.
  assert (Hbody : loopBody st = Break (MkWalk (lineageNodes st) (visitedHashes st)
                                        (currentHash st) (level st) false (askedAt st))).
  { apply (loopBody_no_parent st records); [exact Hreply|assumption|].
    by apply findParent_None. }
  by rewrite (fetchLineage_dangling _ _ _ _ _ _ _ _ _ Hreach Hbody Hfuel).
Qed.

(** The state after a first pass that found a new parent. *)
Lemma reach_first currentProof hash records p original :
  truthy (ProofRecord.originalImageHash currentProof) = Some hash ->
  findProofsByHash 0 hash = Resolves true (Some records) ->
  findParent hash records = Some p ->
  truthy (ProofRecord.originalImageHash p) = Some original ->
  original ∉ startVisited currentProof ->
  reachable currentProof 1
    (MkWalk [plainNode currentProof 0; plainNode p 1]
            (addHash (ProofRecord.transformedImageHash p)
                     ({[ original ]} ∪ startVisited currentProof))
            original 2 true [hash]).
Proof.
  intros Hstart Hreply Hfind Horig Hnew.
  eapply reach_step; [by apply reach_enter|].
  set (st := enter (startNodes currentProof) (startVisited currentProof) hash).
  by rewrite (loopBody_moves st records p original).
Qed.

(** C4, as the code has it. Two records that produce each other's
    hashes: provided the starting proof's own [transformedImageHash] is
    not "hB", the walk accepts the first record at level 1, finds at the
    second lookup that the second record leads back to "hA", appends it
    with the orphan flag at level 2 and ends, having made exactly two
    lookups. *)
Theorem cycle_detection currentProof r1 r2 fuel prev :
  ProofRecord.originalImageHash currentProof = Some "hA" ->
  ProofRecord.transformedImageHash currentProof <> Some "hB" ->
  findProofsByHash 0 "hA" = Resolves true (Some [r1]) ->
  ProofRecord.originalImageHash r1 = Some "hB" ->
  ProofRecord.transformedImageHash r1 = Some "hA" ->
  findProofsByHash 1 "hB" = Resolves true (Some [r2]) ->
  ProofRecord.originalImageHash r2 = Some "hA" ->
  ProofRecord.transformedImageHash r2 = Some "hB" ->
  1 < fuel ->
  fetchLineage fuel prev currentProof
  = Some (["hA"; "hB"],
          MkHook [LineageNode.mk currentProof 0 None;
                  LineageNode.mk r1 1 None;
                  LineageNode.mk r2 2 (Some true)]
                 false None).
Proof.
  intros HSo HSt Hreply1 Ho1 Ht1 Hreply2 Ho2 Ht2 Hfuel.
  assert (Hstart : truthy (ProofRecord.originalImageHash currentProof) = Some "hA")
    by by rewrite HSo.
  assert (Hnew : "hB" ∉ startVisited currentProof).
  { rewrite elem_of_startVisited, Hstart.
    intros [[=]|Hold]. by apply truthy_Some in Hold as [Hold _]. }
  assert (Hreach := reach_first currentProof "hA" [r1] r1 "hB" Hstart Hreply1
                      (findParent_head _ _ _ Ht1) ltac:(by rewrite Ho1) Hnew).
  set (st := MkWalk _ _ _ _ _ _) in Hreach.
  assert (Hbody : loopBody st =
            Break (MkWalk (lineageNodes st ++ [orphanNode r2 (level st)])
                          (visitedHashes st) (currentHash st) (level st)
                          true (askedAt st))).
  { apply (loopBody_seen st [r2] r2 "hA");
      [exact Hreply2|by apply findParent_head|by rewrite Ho2|].
    apply elem_of_addHash. right. apply elem_of_union_r.
    apply elem_of_startVisited. by left. }
  rewrite (fetchLineage_break _ _ _ _ _ _ Hreach Hbody Hfuel).
  by rewrite backfill_found.
Qed.

(** C8, as the code has it. On any pass whose lookup succeeds with no
    records, a placeholder named "Private Image", whose
    [originalImageHash] is the current hash and whose
    [transformedImageHash] is absent, is appended with the orphan flag
    at the current level, and the run ends.  In particular, for a
    starting proof with hash "h1" whose own [transformedImageHash] is
    not "h0", a producer [p] of "h1" from "h0" and nothing recorded for
    "h0", the result is the starting proof at level 0, [p] at level 1
    and the placeholder for "h0" at level 2. *)
Theorem private_endpoint currentProof fuel prev :
  (forall n st,
     reachable currentProof n st ->
     replyAt st = Resolves true (Some []) ->
     n < fuel ->
     fetchLineage fuel prev currentProof
     = Some (askedAt st,
             MkHook (lineageNodes st ++
                       [LineageNode.mk
                          (ProofRecord.mk None (Some "Private Image")
                                          (Some (currentHash st)) None
                                          "" "" None "" (Some ""))
                          (level st) (Some true)])
                    false None)) /\
  (forall p,
     ProofRecord.originalImageHash currentProof = Some "h1" ->
     ProofRecord.transformedImageHash currentProof <> Some "h0" ->
     findProofsByHash 0 "h1" = Resolves true (Some [p]) ->
     ProofRecord.transformedImageHash p = Some "h1" ->
     ProofRecord.originalImageHash p = Some "h0" ->
     findProofsByHash 1 "h0" = Resolves true (Some []) ->
     1 < fuel ->
     fetchLineage fuel prev currentProof
     = Some (["h1"; "h0"],
             MkHook [LineageNode.mk currentProof 0 None;
                     LineageNode.mk p 1 None;
                     LineageNode.mk (createOrphanProof "h0" "Private Image") 2
                                    (Some true)]
                    false None)).
Proof.
  split.
  - intros n st Hreach Hreply Hfuel.
    by rewrite (fetchLineage_private _ _ _ _ _ _ _ Hreach Hreply eq_refl Hfuel).
  - intros p HSo HSt Hreply1 Ht Ho Hreply2 Hfuel.
    assert (Hstart : truthy (ProofRecord.originalImageHash currentProof) = Some "h1")
      by by rewrite HSo.
    assert (Hnew : "h0" ∉ startVisited currentProof).
    { rewrite elem_of_startVisited, Hstart.
      intros [[=]|Hold]. by apply truthy_Some in Hold as [Hold _]. }
    assert (Hreach := reach_first currentProof "h1" [p] p "h0" Hstart Hreply1
                        (findParent_head _ _ _ Ht) ltac:(by rewrite Ho) Hnew).
    set (st := MkWalk _ _ _ _ _ _) in Hreach.
    by rewrite (fetchLineage_private _ _ st true (Some []) _ _ Hreach Hreply2 eq_refl Hfuel).
Qed.

(** ** The list and the log, pass by pass *)

Lemma carries_app nodes node h :
  carries (nodes ++ [node]) h <->
  carries nodes h \/
  truthy (ProofRecord.originalImageHash (LineageNode.proof node)) = Some h \/
  truthy (ProofRecord.transformedImageHash (LineageNode.proof node)) = Some h.
Proof.
  unfold carries. split.
  - intros (x & Hin & Hx). apply elem_of_app in Hin as [Hin|Hin]; [by eauto|].
    apply list_elem_of_singleton in Hin as ->. by right.
  - intros [(x & Hin & Hx)|Hnode].
    + exists x. split; [|assumption]. apply elem_of_app. by left.
    + exists node. split; [|assumption]. apply elem_of_app. right.
      by apply list_elem_of_singleton.
Qed.

Lemma ChainInv_enter currentProof startHash :
  truthy (ProofRecord.originalImageHash currentProof) = Some startHash ->
  ChainInv (enter (startNodes currentProof) (startVisited currentProof) startHash).
Proof.
  intros Hstart. split; simpl.
  - reflexivity.
  - intros k h. by rewrite lookup_nil.
  - intros i node node' _ Hi'. unfold startNodes in Hi'. simpl in Hi'.
    by rewrite lookup_nil in Hi'.
  - intros h. rewrite elem_of_startVisited. unfold carries, startNodes. split.
    + intros Hh. exists (plainNode currentProof 0).
      split; [by apply list_elem_of_singleton|exact Hh].
    + intros (node & ->%list_elem_of_singleton & Hh). exact Hh.
  - intros i [|j] ni nj h Hle Hpos _ Hj; [lia|].
    unfold startNodes in Hj. simpl in Hj. by rewrite lookup_nil in Hj.
Qed.

Lemma ChainInv_step currentProof st st' :
  WalkInv currentProof st ->
  ChainInv st ->
  loopBody st = Continue st' ->
  ChainInv st'.
Proof.
  intros Inv Chain Hbody.
  apply loopBody_Continue in Hbody
    as (success & data & records & p & original
        & Hreply & Huse & Hfind & Horig & Hnew & ->).
  apply usableData_Some in Huse as (-> & -> & _).
  apply findParent_Some in Hfind as [Hin Htrans].
  pose proof (truthy_Some _ _ Horig) as [Horig' Hne].
  destruct Chain as [Hasked Hhash Hlink Hvisited Hfresh].
  destruct (inv_last _ _ Inv) as (lastNode & Hlast & HlastHash).
  rewrite last_lookup in Hlast.
  assert (Hpred : Init.Nat.pred (length (lineageNodes st)) = length (queried st)) by lia.
  rewrite Hpred in Hlast.
  assert (Hcurrent : currentHash st ∈ visitedHashes st).
  { apply Hvisited. exists lastNode. split; [by eapply list_elem_of_lookup_2|].
    left. rewrite HlastHash. apply truthy_present, (inv_hash _ _ Inv). }
  split; simpl; unfold askedAt.
  - rewrite !length_app. simpl. lia.
  - intros k h Hk. apply lookup_app_Some in Hk as [Hk|[Hge Hk]].
    + destruct (Hhash _ _ Hk) as (node & Hnode & Hh).
      exists node. split; [by apply lookup_app_l_Some|assumption].
    + apply list_lookup_singleton_Some in Hk as [Hk <-].
      exists lastNode. split; [|assumption].
      apply lookup_app_l_Some. by replace k with (length (queried st)) by lia.
  - intros i node node' Hi Hi'.
    apply lookup_app_Some in Hi' as [Hi'|[Hge Hi']].
    + rewrite lookup_app_l in Hi by (apply lookup_lt_Some in Hi'; lia).
      destruct (Hlink _ _ _ Hi Hi') as (h & recs & ? & ? & ? & ? & ?).
      exists h, recs. repeat split; try assumption. by apply lookup_app_l_Some.
    + apply list_lookup_singleton_Some in Hi' as [Hi' <-].
      assert (i = length (queried st)) as -> by lia.
      rewrite lookup_app_l in Hi by lia.
      rewrite Hlast in Hi. injection Hi as <-.
      exists (currentHash st), records. repeat split; try assumption.
      by rewrite lookup_app_r, Nat.sub_diag.
  - intros h. rewrite carries_app. simpl. rewrite Horig.
    rewrite elem_of_addHash, elem_of_union, elem_of_singleton, Hvisited.
    split.
    + intros [Ht|[->|Hc]]; auto.
    + intros [Hc|[[= ->]|Ht]]; auto.
  - intros i j ni nj h Hle Hpos Hi Hj Hh.
    apply lookup_app_Some in Hj as [Hj|[Hge Hj]].
    + rewrite lookup_app_l in Hi by (apply lookup_lt_Some in Hj; lia). eauto.
    + apply list_lookup_singleton_Some in Hj as [Hj <-]. simpl in Hh.
      rewrite Horig' in Hh. injection Hh as <-.
      intros Hback. apply Hnew.
      apply lookup_app_Some in Hi as [Hi|[_ Hi]].
      * apply Hvisited. exists ni. split; [by eapply list_elem_of_lookup_2|].
        right. rewrite Hback. by apply truthy_present.
      * apply list_lookup_singleton_Some in Hi as [_ <-]. simpl in Hback.
        rewrite Htrans in Hback. injection Hback as <-. exact Hcurrent.
Qed.

Lemma reachable_chain currentProof n st :
  reachable currentProof n st -> ChainInv st.
Proof.
  induction 1 as [startHash Hstart|n st st' Hreach IH Hbody].
  - by apply ChainInv_enter.
  - eapply ChainInv_step; eauto using reachable_inv.
Qed.

(** ** How a run ends *)

Lemma FinalNode_flagged st final :
  FinalNode st final ->
  LineageNode.isOrphan final = Some true /\ LineageNode.level final = level st.
Proof. by intros []. Qed.

Lemma Terminal_final currentProof n st st' :
  reachable currentProof n st ->
  Terminal st st' ->
  exists final, backfill st' = lineageNodes st ++ [final] /\ FinalNode st final.
Proof.
  intros Hreach [success data records p original Hreply Huse Hfind Horig Hold
                |success data records Hreply Huse Hfind
                |success data Hreply Huse].
  - apply usableData_Some in Huse as (-> & -> & _).
    eexists. split; [by rewrite backfill_found|]. by eapply final_seen.
  - apply usableData_Some in Huse as (-> & -> & Hne).
    eexists. split; [by eapply backfill_dangling|].
    eapply final_unknown; eauto. intros p Hp. by rewrite Hp in Hfind.
  - eexists. split; [by rewrite backfill_found|]. by eapply final_private.
Qed.

(** A run that set no error and had a hash to start from. *)
Lemma fetchLineage_final fuel prev currentProof asked hook startHash :
  fetchLineage fuel prev currentProof = Some (asked, hook) ->
  error hook = None ->
  truthy (ProofRecord.originalImageHash currentProof) = Some startHash ->
  exists n st final,
    reachable currentProof n st /\ asked = askedAt st /\
    lineage hook = lineageNodes st ++ [final] /\ FinalNode st final.
Proof.
  intros Hrun Herr Hstart.
  destruct (fetchLineage_fulfilled _ _ _ _ _ Hrun Herr)
    as [(Hnone & _ & _)|(n & st & st' & Hreach & Hterm & -> & Hnodes)];
    [congruence|].
  destruct (Terminal_final _ _ _ _ Hreach Hterm) as (final & Hback & Hfinal).
  exists n, st, final. by rewrite Hnodes.
Qed.

(** The last node of a reachable state sits at the index of the call
    about to be made, and that call is about its hash. *)
Lemma reachable_last currentProof n st :
  reachable currentProof n st ->
  exists node, lineageNodes st !! length (queried st) = Some node /\
    ProofRecord.originalImageHash (LineageNode.proof node) = Some (currentHash st).
Proof.
  intros Hreach.
  destruct (inv_last _ _ (reachable_inv _ _ _ Hreach)) as (node & Hlast & Hhash).
  pose proof (chain_asked _ (reachable_chain _ _ _ Hreach)) as Hlen.
  exists node. split; [|assumption].
  rewrite last_lookup in Hlast.
  by replace (length (queried st)) with (Init.Nat.pred (length (lineageNodes st))) by lia.
Qed.

(** A loop that ended by an exception did so because the call of a pass
    that started in a reachable state was rejected. *)
Lemma loop_thrown currentProof n st fuel asked :
  reachable currentProof n st ->
  loop fuel st = Some (Thrown asked) ->
  exists m st0, reachable currentProof m st0 /\
                replyAt st0 = Rejects /\ asked = askedAt st0.
Proof.
  revert n st. induction fuel as [|fuel IH]; intros n st Hreach Hloop.
  - simpl in Hloop. by destruct (decide (currentHash st = "")).
  - pose proof (inv_hash _ _ (reachable_inv _ _ _ Hreach)) as Hne.
    rewrite loop_unfold in Hloop by assumption.
    destruct (loopBody st) as [st1|st1|asked1] eqn:Hbody.
    + eapply IH; [|exact Hloop]. by eapply reach_step.
    + discriminate.
    + injection Hloop as <-. exists n, st. split; [assumption|].
      by apply loopBody_Throw.
Qed.

(** A run that set an error. *)
Lemma fetchLineage_failed fuel prev currentProof asked hook :
  fetchLineage fuel prev currentProof = Some (asked, hook) ->
  error hook <> None ->
  hook = MkHook (lineage prev) false (Some "Failed to load image lineage") /\
  exists n st, reachable currentProof n st /\
               replyAt st = Rejects /\ asked = askedAt st.
Proof.
  unfold fetchLineage, traverseLineage, walkFrom. intros Hrun Herr.
  destruct (truthy _) as [startHash|] eqn:Hstart; [|by simplify_eq/=].
  destruct (loop _ _) as [[st'|asked']|] eqn:Hloop; simplify_eq/=.
  split; [reflexivity|].
  eapply loop_thrown in Hloop as (m & st0 & Hreach & Hreply & ->);
    [|by apply reach_enter].
  by exists m, st0.
Qed.

(** ** More about the returned list *)

(** X1. A starting proof whose [originalImageHash] is absent or empty is
    never looked up: whatever the lookup would do, and with any fuel,
    the result is the starting proof alone at level 0, without error. *)
Theorem no_hash_no_walk fuel prev currentProof :
  truthy (ProofRecord.originalImageHash currentProof) = None ->
  fetchLineage fuel prev currentProof
  = Some ([], MkHook [LineageNode.mk currentProof 0 None] false None).
Proof.
  intros Hnone. unfold fetchLineage, traverseLineage. by rewrite Hnone.
Qed.

(** X2. Whenever the computation completes, the returned list has
    exactly one node more than lookups were made, and lookup number [k]
    asked about the [originalImageHash] of the node at index [k]. *)
Theorem lookups_match_nodes fuel prev currentProof asked hook :
  fetchLineage fuel prev currentProof = Some (asked, hook) ->
  error hook = None ->
  length (lineage hook) = S (length asked) /\
  forall k h, asked !! k = Some h ->
    exists node, lineage hook !! k = Some node /\
      ProofRecord.originalImageHash (LineageNode.proof node) = Some h.
Proof.
  intros Hrun Herr.
  destruct (fetchLineage_fulfilled _ _ _ _ _ Hrun Herr)
    as [(_ & -> & ->)|(n & st & st' & Hreach & Hterm & -> & Hnodes)].
  - split; [reflexivity|]. intros k h. by rewrite lookup_nil.
  - destruct (Terminal_final _ _ _ _ Hreach Hterm) as (final & Hback & _).
    rewrite Hnodes, Hback. clear Hnodes Hback.
    pose proof (reachable_chain _ _ _ Hreach) as Chain.
    unfold askedAt. split.
    + rewrite !length_app. simpl. pose proof (chain_asked _ Chain). lia.
    + intros k h Hk. apply lookup_app_Some in Hk as [Hk|[Hge Hk]].
      * destruct (chain_hash _ Chain _ _ Hk) as (node & Hnode & Hh).
        exists node. split; [by apply lookup_app_l_Some|assumption].
      * apply list_lookup_singleton_Some in Hk as [Hk <-].
        destruct (reachable_last _ _ _ Hreach) as (node & Hnode & Hh).
        exists node. split; [|assumption]. apply lookup_app_l_Some.
        by replace k with (length (queried st)) by lia.
Qed.


(** X4. Whenever the starting proof has a non-empty [originalImageHash]
    and the computation completes, the returned list has at least two
    nodes and its last node carries the orphan flag: a walk never ends
    on an unflagged record. *)
Theorem ends_flagged fuel prev currentProof asked hook startHash :
  fetchLineage fuel prev currentProof = Some (asked, hook) ->
  error hook = None ->
  truthy (ProofRecord.originalImageHash currentProof) = Some startHash ->
  exists front final,
    lineage hook = LineageNode.mk currentProof 0 None :: front ++ [final] /\
    LineageNode.isOrphan final = Some true.
Proof.
  intros Hrun Herr Hstart.
  destruct (fetchLineage_final _ _ _ _ _ _ Hrun Herr Hstart)
    as (n & st & final & Hreach & _ & Hnodes & Hfinal).
  destruct (inv_head _ _ (reachable_inv _ _ _ Hreach)) as [front Hhead].
  exists front, final. split; [by rewrite Hnodes, Hhead|].
  apply (FinalNode_flagged _ _ Hfinal).
Qed.

(** X5. Whenever the computation completes, the [originalImageHash] of
    an unflagged node after the first is never the
    [transformedImageHash] of that node or of a node before it: an
    accepted ancestor never leads back into the chain. *)
Theorem no_backward_edge fuel prev currentProof asked hook :
  fetchLineage fuel prev currentProof = Some (asked, hook) ->
  error hook = None ->
  forall i j ni nj h,
    i <= j -> 0 < j ->
    lineage hook !! i = Some ni -> lineage hook !! j = Some nj ->
    flagged nj = false ->
    ProofRecord.originalImageHash (LineageNode.proof nj) = Some h ->
    ProofRecord.transformedImageHash (LineageNode.proof ni) <> Some h.
Proof.
  intros Hrun Herr i j ni nj h Hle Hpos Hi Hj Hplain Hh.
  destruct (fetchLineage_fulfilled _ _ _ _ _ Hrun Herr)
    as [(_ & _ & Hnodes)|(n & st & st' & Hreach & Hterm & _ & Hnodes)].
  - rewrite Hnodes in Hj. apply lookup_lt_Some in Hj. simpl in Hj. lia.
  - destruct (Terminal_final _ _ _ _ Hreach Hterm) as (final & Hback & Hfinal).
    rewrite Hnodes, Hback in Hi, Hj. clear Hnodes Hback.
    apply lookup_app_Some in Hj as [Hj|[_ Hj]].
    + rewrite lookup_app_l in Hi by (apply lookup_lt_Some in Hj; lia).
      by apply (chain_fresh _ (reachable_chain _ _ _ Hreach) i j ni nj h).
    + apply list_lookup_singleton_Some in Hj as [_ <-].
      destruct (FinalNode_flagged _ _ Hfinal) as [Hflag _].
      unfold flagged in Hplain. by rewrite Hflag in Hplain.
Qed.

(** X6. On any pass that finds a producer with a non-empty
    [originalImageHash]: if that hash is the original or transformed
    hash of a node already in the list, the run ends there with the
    producer appended under the orphan flag; otherwise the producer is
    appended unflagged and the walk moves on to that hash. *)
Theorem producer_followed_iff_new currentProof n st records p original fuel prev :
  reachable currentProof n st ->
  replyAt st = Resolves true (Some records) ->
  findParent (currentHash st) records = Some p ->
  truthy (ProofRecord.originalImageHash p) = Some original ->
  (carries (lineageNodes st) original -> n < fuel ->
   fetchLineage fuel prev currentProof
   = Some (askedAt st,
           MkHook (lineageNodes st ++ [LineageNode.mk p (level st) (Some true)])
                  false None)) /\
  (~ carries (lineageNodes st) original ->
   exists st', reachable currentProof (S n) st' /\
     lineageNodes st' = lineageNodes st ++ [LineageNode.mk p (level st) None] /\
     currentHash st' = original).
Proof.
  intros Hreach Hreply Hfind Horig.
  pose proof (chain_visited _ (reachable_chain _ _ _ Hreach) original) as Hvisited.
  split.
  - intros Hcarried Hfuel. apply Hvisited in Hcarried.
    rewrite (fetchLineage_break _ _ _ _ _ _ Hreach
               (loopBody_seen _ _ _ _ Hreply Hfind Horig Hcarried) Hfuel).
    by rewrite backfill_found.
  - intros Hnew. rewrite <- Hvisited in Hnew.
    eexists. split; [|split].
    + eapply reach_step; [exact Hreach|].
      exact (loopBody_moves _ _ _ _ Hreply Hfind Horig Hnew).
    + reflexivity.
    + reflexivity.
Qed.

Section Depth.

(** The hashes that can come back as the [originalImageHash] of a
    record. *)
Variable store : gset string.

Hypothesis store_closed :
  forall k hash success records p original,
    findProofsByHash k hash = Resolves success (Some records) ->
    p ∈ records ->
    ProofRecord.originalImageHash p = Some original ->
    original ∈ store.

Lemma Continue_shrinks st st' :
  loopBody st = Continue st' ->
  size (store ∖ visitedHashes st') < size (store ∖ visitedHashes st).
Proof.
  intros Hbody.
  pose proof (Continue_in_store store store_closed _ _ Hbody) as Hstore.
  destruct (Continue_marks _ _ Hbody) as ([Hsub _] & Hin & Hout).
  apply subset_size. split.
  - intros h [Hh Hfresh]%elem_of_difference.
    apply elem_of_difference. split; [assumption|]. intros Hold. by apply Hfresh, Hsub.
  - intros Hback. specialize (Hback (currentHash st')).
    rewrite !elem_of_difference in Hback. tauto.
Qed.

Lemma reachable_budget currentProof n st :
  reachable currentProof n st ->
  n + size (store ∖ visitedHashes st) <= size store.
Proof.
  induction 1 as [startHash Hstart|n st st' Hreach IH Hbody].
  - simpl. apply subseteq_size. intros h [Hh _]%elem_of_difference. exact Hh.
  - pose proof (Continue_shrinks _ _ Hbody). lia.
Qed.

(** X8. When every [originalImageHash] a lookup can return comes from
    one finite set, a run makes at most one lookup more than that set
    has elements, whether it ends with a list or with an error, and a
    returned list has at most two nodes more than the set has elements. *)
Theorem depth_bound fuel prev currentProof asked hook :
  fetchLineage fuel prev currentProof = Some (asked, hook) ->
  length asked <= S (size store) /\
  (error hook = None -> length (lineage hook) <= S (S (size store))).
Proof.
  intros Hrun.
  assert (Hasked : length asked <= S (size store)).
  { destruct (error hook) as [msg|] eqn:Herr.
    - destruct (fetchLineage_failed _ _ _ _ _ Hrun)
        as (_ & n & st & Hreach & _ & ->); [by rewrite Herr|].
      pose proof (reachable_budget _ _ _ Hreach).
      destruct (reachable_count _ _ _ Hreach) as [Hcount _].
      unfold askedAt. rewrite length_app. simpl. lia.
    - destruct (fetchLineage_fulfilled _ _ _ _ _ Hrun Herr)
        as [(_ & -> & _)|(n & st & st' & Hreach & _ & -> & _)]; [simpl; lia|].
      pose proof (reachable_budget _ _ _ Hreach).
      destruct (reachable_count _ _ _ Hreach) as [Hcount _].
      unfold askedAt. rewrite length_app. simpl. lia. }
  split; [assumption|].
  intros Herr.
  destruct (fetchLineage_fulfilled _ _ _ _ _ Hrun Herr)
    as [(_ & _ & ->)|(n & st & st' & Hreach & Hterm & -> & Hnodes)]; [simpl; lia|].
  destruct (Terminal_final _ _ _ _ Hreach Hterm) as (final & Hback & _).
  rewrite Hnodes, Hback, length_app. simpl.
  pose proof (chain_asked _ (reachable_chain _ _ _ Hreach)).
  unfold askedAt in Hasked. rewrite length_app in Hasked. simpl in Hasked. lia.
Qed.

End Depth.

(** ** What is displayed after a run *)

Lemma fetchLineage_rows fuel prev currentProof asked hook :
  fetchLineage fuel prev currentProof = Some (asked, hook) ->
  error hook = None ->
  length (lineage hook) = S (length asked).
Proof.
  intros Hrun Herr.
  destruct (fetchLineage_fulfilled _ _ _ _ _ Hrun Herr)
    as [(_ & -> & ->)|(n & st & st' & Hreach & Hterm & -> & Hnodes)]; [reflexivity|].
  destruct (Terminal_final _ _ _ _ Hreach Hterm) as (final & Hback & _).
  rewrite Hnodes, Hback. unfold askedAt. rewrite !length_app. simpl.
  pose proof (chain_asked _ (reachable_chain _ _ _ Hreach)). lia.
Qed.

(** ** Levels and passes *)

(** C6. Whenever the computation completes, the node at index [i] of
    the returned list has level [i], and the list has exactly one node
    per pass of the loop besides the starting node.  Each pass makes
    exactly one lookup, so the log [asked] counts the passes.  After [n]
    passes that continued, [n] lookups have been made and the list has
    [n + 1] nodes; each continuing pass appends exactly one node, at
    the level of its position; and the pass on which the walk ends,
    started after [n] continuing ones, leaves exactly one more node,
    synthesized or not, at level [n + 1]. *)
Theorem level_is_index fuel prev currentProof asked hook :
  fetchLineage fuel prev currentProof = Some (asked, hook) ->
  error hook = None ->
  (forall i node, lineage hook !! i = Some node -> LineageNode.level node = i) /\
  length (lineage hook) = S (length asked) /\
  (forall n st, reachable currentProof n st ->
     length (queried st) = n /\ length (lineageNodes st) = S n) /\
  (forall n st st', reachable currentProof n st -> loopBody st = Continue st' ->
     exists node, lineageNodes st' = lineageNodes st ++ [node] /\
                  LineageNode.level node = S n) /\
  (forall startHash,
     truthy (ProofRecord.originalImageHash currentProof) = Some startHash ->
     exists n st final,
       reachable currentProof n st /\
       asked = queried st ++ [currentHash st] /\
       lineage hook = lineageNodes st ++ [final] /\
       LineageNode.level final = S n).
Proof.
  intros Hrun Herr. split; [|split; [|split; [|split]]].
  - intros i node Hi.
    destruct (fetchLineage_shape _ _ _ _ _ Hrun Herr)
      as [Hnodes|(n & st & p & Hreach & Hnodes)]; rewrite Hnodes in Hi.
    + apply list_lookup_singleton_Some in Hi as [-> <-]. reflexivity.
    + pose proof (reachable_inv _ _ _ Hreach) as Inv.
      apply lookup_app_Some in Hi as [Hi|[Hge Hi]].
      * by apply (inv_levels _ _ Inv).
      * apply list_lookup_singleton_Some in Hi as [Hi <-]. simpl.
        rewrite (inv_level _ _ Inv). lia.
  - by eapply fetchLineage_rows.
  - intros n st Hreach.
    destruct (reachable_count _ _ _ Hreach) as [Hcalls Hlevel].
    split; [assumption|].
    by rewrite <- (inv_level _ _ (reachable_inv _ _ _ Hreach)).
  - intros n st st' Hreach Hbody.
    destruct (reachable_count _ _ _ Hreach) as [_ Hlevel].
    apply loopBody_Continue in Hbody as (?&?&?& p &?&_&_&_&_&_& ->).
    exists (plainNode p (level st)). split; [reflexivity|exact Hlevel].
  - intros startHash Hstart.
    destruct (fetchLineage_final _ _ _ _ _ _ Hrun Herr Hstart)
      as (n & st & final & Hreach & -> & Hnodes & Hfinal).
    exists n, st, final. repeat split; try assumption.
    destruct (FinalNode_flagged _ _ Hfinal) as [_ ->].
    apply (reachable_count _ _ _ Hreach).
Qed.

(** X9. Whenever the computation completes, the titles of the rows go
    by position: the first row is titled "Current Image"; every row
    strictly between the first and the last is a link to the gallery
    page of its record; and a last row other than the first is titled
    "Circular Reference" when its record has a non-empty [id] and
    "Private Image" when it has none, which is the case of both kinds
    of placeholder. *)
Theorem titles_by_position fuel prev currentProof asked hook :
  fetchLineage fuel prev currentProof = Some (asked, hook) ->
  error hook = None ->
  forall i node, lineage hook !! i = Some node ->
    (i = 0 -> NodeTitle node i = CurrentImage) /\
    (0 < i -> S i < length (lineage hook) ->
       NodeTitle node i
       = GalleryLink ("/gallery/" +:+ interpolate (ProofRecord.id (LineageNode.proof node)))
                     (ProofRecord.imageName (LineageNode.proof node))) /\
    (0 < i -> S i = length (lineage hook) ->
       (NodeTitle node i = OrphanLabel "Circular Reference" /\
        truthy (ProofRecord.id (LineageNode.proof node)) <> None) \/
       (NodeTitle node i = OrphanLabel "Private Image" /\
        truthy (ProofRecord.id (LineageNode.proof node)) = None)) /\
    (forall hash name, 0 < i ->
       node = LineageNode.mk (createOrphanProof hash name) i (Some true) ->
       NodeTitle node i = OrphanLabel "Private Image").
Proof.
  intros Hrun Herr i node Hi. repeat split.
  - by intros ->.
  - intros Hpos Hlt. unfold NodeTitle. rewrite decide_False by lia.
    assert (Hplain : LineageNode.isOrphan node = None).
    { destruct (fetchLineage_shape _ _ _ _ _ Hrun Herr)
        as [Hnodes|(n & st & p & Hreach & Hnodes)]; rewrite Hnodes in Hi, Hlt.
      - simpl in Hlt. lia.
      - rewrite length_app in Hlt. simpl in Hlt.
        apply lookup_app_Some in Hi as [Hi|[Hge _]]; [|lia].
        pose proof (inv_plain _ _ (reachable_inv _ _ _ Hreach)) as Hall.
        rewrite Forall_lookup in Hall. eauto. }
    unfold flagged. by rewrite Hplain.
  - intros Hpos Hlast. unfold NodeTitle. rewrite decide_False by lia.
    assert (Hflag : LineageNode.isOrphan node = Some true).
    { destruct (fetchLineage_shape _ _ _ _ _ Hrun Herr)
        as [Hnodes|(n & st & p & Hreach & Hnodes)]; rewrite Hnodes in Hi, Hlast.
      - simpl in Hlast. lia.
      - rewrite length_app in Hlast. simpl in Hlast.
        apply lookup_app_Some in Hi as [Hi|[_ Hi]].
        + apply lookup_lt_Some in Hi. lia.
        + by apply list_lookup_singleton_Some in Hi as [_ <-]. }
    unfold flagged. rewrite Hflag.
    destruct (truthy (ProofRecord.id _)); [by left|by right].
  - intros hash name Hpos ->. unfold NodeTitle. by rewrite decide_False by lia.
Qed.

(** ** The setter calls of a run *)

(** Taken alone, a run leaves the hook where its calls, made in order,
    leave it. *)
Lemma fetchLineage_calls fuel prev currentProof :
  fetchLineage fuel prev currentProof
  = (fun run => (lookups run, foldl applyCall prev (opening run ++ closing run)))
      <$> fetchLineageCalls fuel currentProof.
Proof.
  unfold fetchLineage, fetchLineageCalls.
  by destruct (traverseLineage _ _ _ _) as [[found nodes visited asked|asked]|].
Qed.

(** Every call of a run that ended with a list was answered. *)
Lemma fulfilled_all_answered fuel prev currentProof asked hook :
  fetchLineage fuel prev currentProof = Some (asked, hook) ->
  error hook = None ->
  forall k h, asked !! k = Some h -> findProofsByHash k h <> Rejects.
Proof.
  intros Hrun Herr k h Hk.
  destruct (fetchLineage_fulfilled _ _ _ _ _ Hrun Herr)
    as [(_ & -> & _)|(n & st & st' & Hreach & Hterm & -> & _)].
  - by rewrite lookup_nil in Hk.
  - unfold askedAt in Hk. apply lookup_app_Some in Hk as [Hk|[Hge Hk]].
    + by apply (inv_calls _ _ (reachable_inv _ _ _ Hreach)).
    + apply list_lookup_singleton_Some in Hk as [Hk <-].
      replace k with (length (queried st)) by lia.
      change (replyAt st <> Rejects). destruct Hterm; congruence.
Qed.

(** The two ways a run can go, by its calls. *)
Lemma fetchLineageCalls_cases fuel currentProof run :
  fetchLineageCalls fuel currentProof = Some run ->
  opening run = [SetLoading true; SetError None] /\
  ((exists nodes,
      closing run = [SetLineage nodes; SetLoading false] /\
      fetchLineage fuel mounted currentProof
      = Some (lookups run, MkHook nodes false None)) \/
   (closing run = [SetError (Some "Failed to load image lineage"); SetLoading false] /\
    fetchLineage fuel mounted currentProof
    = Some (lookups run, MkHook [] false (Some "Failed to load image lineage")))).
Proof.
  unfold fetchLineageCalls, fetchLineage.
  destruct (traverseLineage _ _ _ _) as [[found nodes visited asked|asked]|];
    intros [= <-]; simpl; split; try reflexivity.
  - left. by exists nodes.
  - by right.
Qed.

(** X7. The setter calls of one run of [fetchLineage] are
    [setLoading(true)] and [setError(null)] before the walk, and after
    it one of two endings.  Either [setLineage] with the list and then
    [setLoading(false)]: then every lookup the run made was answered.
    Or [setError("Failed to load image lineage")] and then
    [setLoading(false)], with no [setLineage] at all: then the last
    lookup the run made was rejected and every one before it was
    answered.  So a run sets an error message exactly when one of its
    lookups was rejected. *)
Theorem setError_only_on_rejection fuel currentProof run :
  fetchLineageCalls fuel currentProof = Some run ->
  opening run = [SetLoading true; SetError None] /\
  ((exists nodes,
      closing run = [SetLineage nodes; SetLoading false] /\
      length nodes = S (length (lookups run)) /\
      forall k h, lookups run !! k = Some h -> findProofsByHash k h <> Rejects) \/
   (closing run = [SetError (Some "Failed to load image lineage"); SetLoading false] /\
    exists earlier h,
      lookups run = earlier ++ [h] /\
      findProofsByHash (length earlier) h = Rejects /\
      forall k h', earlier !! k = Some h' -> findProofsByHash k h' <> Rejects)).
Proof.
  intros Hcalls.
  destruct (fetchLineageCalls_cases _ _ _ Hcalls)
    as [Hopening [(nodes & Hclosing & Hrun)|[Hclosing Hrun]]];
    (split; [exact Hopening|]).
  - left. exists nodes. split; [exact Hclosing|]. split.
    + exact (fetchLineage_rows _ _ _ _ _ Hrun eq_refl).
    + exact (fulfilled_all_answered _ _ _ _ _ Hrun eq_refl).
  - right. split; [exact Hclosing|].
    destruct (fetchLineage_failed _ _ _ _ _ Hrun)
      as (_ & n & st & Hreach & Hreply & Hasked); [discriminate|].
    exists (queried st), (currentHash st). split; [exact Hasked|]. split.
    + exact Hreply.
    + apply (inv_calls _ _ (reachable_inv _ _ _ Hreach)).
Qed.

(** X10. What the component shows once the closing calls of a run have
    been made on the hook, whatever state [before] the hook was in when
    they were made (other runs of the effect may have acted on it since
    this run started).  It no longer shows the loading indicator.  If a
    lookup of the run was rejected it shows the banner "Failed to load
    image lineage".  If none was: when an error is pending in [before],
    the banner with that error stays; otherwise it shows the timeline of
    this run's list, one row per lookup plus one for the starting proof,
    with the connecting line exactly when a lookup was made. *)
Theorem view_after_closing getIPFSGatewayURL toLocaleString substring
    fuel currentProof run before :
  fetchLineageCalls fuel currentProof = Some run ->
  ImageLineage getIPFSGatewayURL toLocaleString substring
               (foldl applyCall before (closing run)) <> LoadingIndicator /\
  ((exists k h, lookups run !! k = Some h /\ findProofsByHash k h = Rejects) ->
   ImageLineage getIPFSGatewayURL toLocaleString substring
                (foldl applyCall before (closing run))
   = ErrorMessage "Failed to load image lineage") /\
  ((forall k h, lookups run !! k = Some h -> findProofsByHash k h <> Rejects) ->
   (forall message, truthy (error before) = Some message ->
      ImageLineage getIPFSGatewayURL toLocaleString substring
                   (foldl applyCall before (closing run))
      = ErrorMessage message) /\
   (truthy (error before) = None ->
    exists nodes rows,
      closing run = [SetLineage nodes; SetLoading false] /\
      ImageLineage getIPFSGatewayURL toLocaleString substring
                   (foldl applyCall before (closing run))
      = Timeline (bool_decide (lookups run <> [])) rows /\
      length rows = S (length (lookups run)) /\
      forall i row, rows !! i = Some row ->
        exists node, nodes !! i = Some node /\
          row = LineageNodeView getIPFSGatewayURL toLocaleString substring node i)).
Proof.
  intros Hcalls.
  destruct (fetchLineageCalls_cases _ _ _ Hcalls)
    as [_ [(nodes & Hclosing & Hrun)|[Hclosing Hrun]]]; rewrite Hclosing; simpl.
  - pose proof (fetchLineage_rows _ _ _ _ _ Hrun eq_refl) as Hlen. simpl in Hlen.
    pose proof (fulfilled_all_answered _ _ _ _ _ Hrun eq_refl) as Hanswered.
    unfold ImageLineage. simpl. split; [|split].
    + by destruct (truthy (error before)).
    + intros (k & h & Hk & Hrej). by apply Hanswered in Hk.
    + intros _. split.
      * by intros message ->.
      * intros ->. exists nodes. eexists. split; [reflexivity|].
        split; [f_equal|split].
        -- apply bool_decide_ext. rewrite Hlen.
           destruct (lookups run); simpl; split; intros; try done; lia.
        -- by rewrite length_imap.
        -- intros i row Hrow. rewrite list_lookup_imap in Hrow.
           destruct (nodes !! i) as [node|]; [|discriminate].
           exists node. split; [reflexivity|]. simpl in Hrow. congruence.
  - destruct (fetchLineage_failed _ _ _ _ _ Hrun)
      as (_ & n & st & Hreach & Hreply & Hasked); [discriminate|].
    split; [discriminate|]. split; [reflexivity|].
    intros Hanswered. exfalso.
    apply (Hanswered (length (queried st)) (currentHash st)); [|exact Hreply].
    rewrite Hasked. unfold askedAt. by rewrite lookup_app_r, Nat.sub_diag.
Qed.

(** X11. In every row the dot and the title agree: the dot of the
    current image goes with the title "Current Image", the orphan dot
    with an orphan label, and the ancestor dot with a gallery link. *)
Theorem dot_matches_title getIPFSGatewayURL toLocaleString substring node index :
  match dot (LineageNodeView getIPFSGatewayURL toLocaleString substring node index),
        title (LineageNodeView getIPFSGatewayURL toLocaleString substring node index) with
  | DotCurrent, CurrentImage => index = 0
  | DotOrphan, OrphanLabel _ => index <> 0 /\ flagged node = true
  | DotAncestor, GalleryLink _ _ => index <> 0 /\ flagged node = false
  | _, _ => False
  end.
Proof.
  unfold LineageNodeView, NodeTitle. simpl.
  destruct (decide (index = 0)); [assumption|].
  by destruct (flagged node).
Qed.

End Walker.

(** ** More fuel changes nothing *)

Lemma fetchLineage_more_fuel findProofsByHash fuel fuel' prev currentProof run :
  fetchLineage findProofsByHash fuel prev currentProof = Some run ->
  fuel <= fuel' ->
  fetchLineage findProofsByHash fuel' prev currentProof = Some run.
Proof.
  unfold fetchLineage, traverseLineage, walkFrom. intros Hrun Hle.
  destruct (truthy _) as [startHash|]; [|assumption].
  destruct (loop findProofsByHash fuel _) as [exit|] eqn:Hloop; [|discriminate].
  by rewrite (loop_more_fuel _ _ _ _ _ Hloop Hle).
Qed.

(** ** The examples, run *)

Import Scenario.

Lemma chainStore_closed k hash success records p original :
  chainStore k hash = Resolves success (Some records) ->
  p ∈ records ->
  ProofRecord.originalImageHash p = Some original ->
  original ∈ chainHashes.
Proof.
  unfold chainStore, answering. intros [= _ <-]. simpl.
  destruct (decide ("h1" = hash)) as [_|_].
  - intros ->%list_elem_of_singleton [= <-]. by apply elem_of_singleton.
  - by intros ?%elem_of_nil.
Qed.

Lemma chain_run fuel :
  2 <= fuel ->
  useImageLineage chainStore fuel current
  = Some (["h1"; "h0"], MkHook chainLineage false None).
Proof.
  apply (fetchLineage_more_fuel chainStore 2). vm_compute. reflexivity.
Qed.

(** *** C1 *)

(** A reply with [success = false] on the only call of a walk, and a
    lineage is produced all the same, with no error. *)
Lemma success_false_is_not_fatal :
  failing 0 "h1" = Resolves false None /\
  useImageLineage failing 1 current
  = Some (["h1"],
          MkHook [LineageNode.mk current 0 None;
                  LineageNode.mk (createOrphanProof "h1" "Private Image") 1 (Some true)]
                 false None).
Proof. split; vm_compute; reflexivity. Qed.

Lemma lookup_failure_witness :
  useImageLineage rejecting 1 current
  = Some (["h1"], MkHook [] false (Some "Failed to load image lineage")) /\
  useImageLineage failing 1 current
  = Some (["h1"],
          MkHook [LineageNode.mk current 0 None;
                  LineageNode.mk (createOrphanProof "h1" "Private Image") 1 (Some true)]
                 false None).
Proof.
  split.
  - exact (proj1 (lookup_failure rejecting current 1 mounted) 0
             (enter (startNodes current) (startVisited current) "h1")
             (reach_enter rejecting current "h1" eq_refl) eq_refl (le_n 1)).
  - exact (proj2 (proj2 (lookup_failure failing current 1 mounted)) 0
             (enter (startNodes current) (startVisited current) "h1") None
             (reach_enter failing current "h1" eq_refl) eq_refl (le_n 1)).
Defined.

(** *** C2 *)

(** A producer of the current hash without an [originalImageHash]: the
    producer is not appended, a placeholder for the current hash is. *)
Lemma parentless_producer_not_appended :
  parentlessStore 0 "h1" = Resolves true (Some [parentless]) /\
  ProofRecord.transformedImageHash parentless = Some "h1" /\
  ProofRecord.originalImageHash parentless = None /\
  useImageLineage parentlessStore 1 current
  = Some (["h1"],
          MkHook [LineageNode.mk current 0 None;
                  LineageNode.mk (createOrphanProof "h1" "Unknown Parent Image") 1
                                 (Some true)]
                 false None) /\
  createOrphanProof "h1" "Unknown Parent Image" <> parentless.
Proof. repeat split; try (vm_compute; reflexivity). discriminate. Qed.

Lemma producer_terminal_witness :
  useImageLineage chainStore 1 currentBack
  = Some (["h1"],
          MkHook [LineageNode.mk currentBack 0 None; LineageNode.mk parent 1 (Some true)]
                 false None) /\
  useImageLineage parentlessStore 1 current
  = Some (["h1"],
          MkHook [LineageNode.mk current 0 None;
                  LineageNode.mk (createOrphanProof "h1" "Unknown Parent Image") 1
                                 (Some true)]
                 false None).
Proof.
  split.
  - exact (proj1 (producer_terminal chainStore currentBack 0
                    (enter (startNodes currentBack) (startVisited currentBack) "h1")
                    [parent] parent 1 mounted
                    (reach_enter chainStore currentBack "h1" eq_refl)
                    eq_refl eq_refl (le_n 1))
             "h0" eq_refl
             (proj2 (elem_of_startVisited currentBack "h0") (or_intror eq_refl))).
  - exact (proj1 (proj2 (producer_terminal parentlessStore current 0
                           (enter (startNodes current) (startVisited current) "h1")
                           [parentless] parentless 1 mounted
                           (reach_enter parentlessStore current "h1" eq_refl)
                           eq_refl eq_refl (le_n 1)))
             eq_refl).
Defined.

(** *** C3 *)

(** The placeholder of a dangling first edge is at level 1, not 2. *)
Lemma dangling_edge_is_level_1 :
  ProofRecord.originalImageHash current = Some "h1" /\
  unrelatedStore 0 "h1" = Resolves true (Some [unrelated]) /\
  ProofRecord.transformedImageHash unrelated <> Some "h1" /\
  useImageLineage unrelatedStore 1 current
  = Some (["h1"],
          MkHook [LineageNode.mk current 0 None;
                  LineageNode.mk (createOrphanProof "h1" "Unknown Parent Image") 1
                                 (Some true)]
                 false None) /\
  forall fuel asked hook node,
    useImageLineage unrelatedStore fuel current = Some (asked, hook) ->
    lineage hook !! 1 = Some node ->
    LineageNode.level node <> 2.
Proof.
  repeat split; try (vm_compute; reflexivity); [discriminate|].
  intros fuel asked hook node Hrun Hnode.
  assert (Hone : useImageLineage unrelatedStore 1 current
                 = Some (["h1"],
                         MkHook [LineageNode.mk current 0 None;
                                 LineageNode.mk
                                   (createOrphanProof "h1" "Unknown Parent Image") 1
                                   (Some true)]
                                false None))
    by (vm_compute; reflexivity).
  destruct fuel as [|fuel]; [discriminate|].
  unfold useImageLineage in Hrun.
  rewrite (fetchLineage_more_fuel _ 1 (S fuel) _ _ _ Hone) in Hrun by lia.
  injection Hrun as <- <-. injection Hnode as <-. discriminate.
Qed.

Lemma dangling_edge_witness :
  useImageLineage unrelatedStore 1 current
  = Some (["h1"],
          MkHook [LineageNode.mk current 0 None;
                  LineageNode.mk (createOrphanProof "h1" "Unknown Parent Image") 1
                                 (Some true)]
                 false None).
Proof.
  refine (dangling_edge unrelatedStore current "h1" [unrelated] 1 mounted
            eq_refl _ eq_refl _ _ (le_n 1)).
  - discriminate.
  - discriminate.
  - repeat constructor. discriminate.
Defined.

(** *** C4 *)

(** A starting proof from "hA" whose own output is "hB": the walk ends
    after one lookup, with its last node at level 1. *)
Lemma cycle_can_end_at_level_1 :
  ProofRecord.originalImageHash cycleStartBack = Some "hA" /\
  (forall k, cycleStore k "hA" = Resolves true (Some [fromB])) /\
  (forall k, cycleStore k "hB" = Resolves true (Some [fromA])) /\
  useImageLineage cycleStore 2 cycleStartBack
  = Some (["hA"],
          MkHook [LineageNode.mk cycleStartBack 0 None; LineageNode.mk fromB 1 (Some true)]
                 false None).
Proof. repeat split; vm_compute; reflexivity. Qed.

Lemma cycle_detection_witness :
  useImageLineage cycleStore 2 cycleStart
  = Some (["hA"; "hB"],
          MkHook [LineageNode.mk cycleStart 0 None;
                  LineageNode.mk fromB 1 None;
                  LineageNode.mk fromA 2 (Some true)]
                 false None).
Proof.
  refine (cycle_detection cycleStore cycleStart fromB fromA 2 mounted
            eq_refl _ eq_refl eq_refl eq_refl eq_refl eq_refl eq_refl (le_n 2)).
  discriminate.
Defined.

(** *** C5 *)

Lemma lineage_terminates_witness :
  size chainHashes < 2 /\
  exists asked hook, useImageLineage chainStore 2 current = Some (asked, hook).
Proof.
  assert (Hsize : size chainHashes < 2)
    by (unfold chainHashes; rewrite size_singleton; lia).
  split; [exact Hsize|].
  exact (proj1 (lineage_terminates chainStore chainHashes chainStore_closed
                  2 mounted current Hsize)).
Defined.

(** *** C6, C7, C9, C10 *)

Lemma dangling_run :
  useImageLineage unrelatedStore 1 current
  = Some (["h1"],
          MkHook [LineageNode.mk current 0 None;
                  LineageNode.mk (createOrphanProof "h1" "Unknown Parent Image") 1
                                 (Some true)]
                 false None).
Proof. vm_compute. reflexivity. Qed.

Lemma level_is_index_witness :
  useImageLineage chainStore 2 current
  = Some (["h1"; "h0"], MkHook chainLineage false None) /\
  (forall i node, chainLineage !! i = Some node -> LineageNode.level node = i) /\
  length chainLineage = S (length ["h1"; "h0"]) /\
  length [LineageNode.mk current 0 None;
          LineageNode.mk (createOrphanProof "h1" "Unknown Parent Image") 1 (Some true)]
  = S (length ["h1"]).
Proof.
  destruct (level_is_index chainStore 2 mounted current ["h1"; "h0"]
              (MkHook chainLineage false None) (chain_run 2 (le_n 2)) eq_refl)
    as (Hlevels & Hlength & _).
  destruct (level_is_index unrelatedStore 1 mounted current ["h1"] _ dangling_run eq_refl)
    as (_ & Hdangling & _).
  split; [exact (chain_run 2 (le_n 2))|].
  split; [exact Hlevels|]. split; [exact Hlength|exact Hdangling].
Defined.

Lemma no_duplicate_ancestors_witness :
  useImageLineage chainStore 2 current
  = Some (["h1"; "h0"], MkHook chainLineage false None) /\
  forall i j ni nj h,
    chainLineage !! i = Some ni -> chainLineage !! j = Some nj ->
    flagged ni = false -> flagged nj = false ->
    ProofRecord.originalImageHash (LineageNode.proof ni) = Some h ->
    ProofRecord.originalImageHash (LineageNode.proof nj) = Some h ->
    i = j.
Proof.
  split; [exact (chain_run 2 (le_n 2))|].
  exact (no_duplicate_ancestors chainStore 2 mounted current ["h1"; "h0"]
           (MkHook chainLineage false None) (chain_run 2 (le_n 2)) eq_refl).
Defined.

Lemma starts_with_current_proof_witness :
  useImageLineage chainStore 2 current
  = Some (["h1"; "h0"], MkHook chainLineage false None) /\
  exists rest, chainLineage = LineageNode.mk current 0 None :: rest.
Proof.
  split; [exact (chain_run 2 (le_n 2))|].
  exact (proj1 (starts_with_current_proof chainStore 2 mounted current ["h1"; "h0"]
                  (MkHook chainLineage false None) (chain_run 2 (le_n 2)) eq_refl)).
Defined.

Lemma orphan_only_last_witness :
  useImageLineage chainStore 2 current
  = Some (["h1"; "h0"], MkHook chainLineage false None) /\
  forall i node, chainLineage !! i = Some node ->
    S i < length chainLineage -> LineageNode.isOrphan node = None.
Proof.
  split; [exact (chain_run 2 (le_n 2))|].
  exact (proj1 (orphan_only_last chainStore 2 mounted current ["h1"; "h0"]
                  (MkHook chainLineage false None) (chain_run 2 (le_n 2)) eq_refl)).
Defined.

(** *** C8 *)

(** A starting proof from "h1" whose own output is "h0": the producer
    of "h1" from "h0" is appended as the flagged last node, and "h0" is
    never asked about. *)
Lemma chain_can_end_at_producer :
  ProofRecord.originalImageHash currentBack = Some "h1" /\
  (forall k, chainStore k "h1" = Resolves true (Some [parent])) /\
  ProofRecord.transformedImageHash parent = Some "h1" /\
  ProofRecord.originalImageHash parent = Some "h0" /\
  (forall k, chainStore k "h0" = Resolves true (Some [])) /\
  useImageLineage chainStore 2 currentBack
  = Some (["h1"],
          MkHook [LineageNode.mk currentBack 0 None; LineageNode.mk parent 1 (Some true)]
                 false None).
Proof. repeat split; vm_compute; reflexivity. Qed.

Lemma private_endpoint_witness :
  useImageLineage chainStore 2 current
  = Some (["h1"; "h0"], MkHook chainLineage false None) /\
  useImageLineage emptyStore 1 current
  = Some (["h1"],
          MkHook [LineageNode.mk current 0 None;
                  LineageNode.mk (createOrphanProof "h1" "Private Image") 1 (Some true)]
                 false None).
Proof.
  split.
  - refine (proj2 (private_endpoint chainStore current 2 mounted) parent
              eq_refl _ eq_refl eq_refl eq_refl eq_refl (le_n 2)).
    discriminate.
  - exact (proj1 (private_endpoint emptyStore current 1 mounted) 0
             (enter (startNodes current) (startVisited current) "h1")
             (reach_enter emptyStore current "h1" eq_refl) eq_refl (le_n 1)).
Defined.

(** ** The webpack hook *)

Section WebpackFacts.

Context {Value Rest : Type}.
Variable ofBoolean : bool -> Value.
Variable ofString : string -> Value.

(** X12. Applying the webpack hook to a configuration it has already
    been applied to changes nothing. *)
Theorem webpack_idempotent (config : @NextConfig.Config Value Rest) :
  NextConfig.webpack ofBoolean ofString (NextConfig.webpack ofBoolean ofString config)
  = NextConfig.webpack ofBoolean ofString config.
Proof.
  unfold NextConfig.webpack. simpl. f_equal; f_equal.
  - apply map_eq. intros k. rewrite !lookup_insert. by repeat case_decide.
  - apply map_eq. intros k. rewrite !lookup_insert. by repeat case_decide.
Qed.

(** X13. The webpack hook switches on [asyncWebAssembly] and [layers],
    sets the WebAssembly module file name, and leaves everything else
    as it was: every other experiment, every other output setting and
    the rest of the configuration; a missing [experiments] or [output]
    section counts as an empty one. *)
Theorem webpack_keeps_other_settings (config : @NextConfig.Config Value Rest) :
  NextConfig.rest (NextConfig.webpack ofBoolean ofString config) = NextConfig.rest config /\
  exists e o,
    NextConfig.experiments (NextConfig.webpack ofBoolean ofString config) = Some e /\
    NextConfig.output (NextConfig.webpack ofBoolean ofString config) = Some o /\
    e !! "asyncWebAssembly" = Some (ofBoolean true) /\
    e !! "layers" = Some (ofBoolean true) /\
    o !! "webassemblyModuleFilename" = Some (ofString "static/wasm/[modulehash].wasm") /\
    (forall k, k <> "asyncWebAssembly" -> k <> "layers" ->
       e !! k = NextConfig.spread (NextConfig.experiments config) !! k) /\
    (forall k, k <> "webassemblyModuleFilename" ->
       o !! k = NextConfig.spread (NextConfig.output config) !! k).
Proof.
  split; [reflexivity|].
  eexists _, _. split; [reflexivity|]. split; [reflexivity|].
  repeat split.
  - by rewrite lookup_insert_ne, lookup_insert_eq.
  - by rewrite lookup_insert_eq.
  - by rewrite lookup_insert_eq.
  - intros k Ha Hl. by rewrite !lookup_insert_ne.
  - intros k Hw. by rewrite lookup_insert_ne.
Qed.

End WebpackFacts.

(** ** The further properties, run on the examples *)

Lemma no_hash_no_walk_witness :
  truthy (ProofRecord.originalImageHash rootless) = None /\
  useImageLineage rejecting 0 rootless
  = Some ([], MkHook [LineageNode.mk rootless 0 None] false None) /\
  truthy (ProofRecord.originalImageHash rootlessEmpty) = None /\
  useImageLineage rejecting 0 rootlessEmpty
  = Some ([], MkHook [LineageNode.mk rootlessEmpty 0 None] false None).
Proof.
  split; [reflexivity|]. split; [|split; [reflexivity|]].
  - exact (no_hash_no_walk rejecting 0 mounted rootless eq_refl).
  - exact (no_hash_no_walk rejecting 0 mounted rootlessEmpty eq_refl).
Defined.

Lemma lookups_match_nodes_witness :
  useImageLineage chainStore 2 current
  = Some (["h1"; "h0"], MkHook chainLineage false None) /\
  length chainLineage = 3 /\
  forall k h, ["h1"; "h0"] !! k = Some h ->
    exists node, chainLineage !! k = Some node /\
      ProofRecord.originalImageHash (LineageNode.proof node) = Some h.
Proof.
  split; [exact (chain_run 2 (le_n 2))|].
  exact (lookups_match_nodes chainStore 2 mounted current ["h1"; "h0"]
           (MkHook chainLineage false None) (chain_run 2 (le_n 2)) eq_refl).
Defined.


Lemma ends_flagged_witness :
  useImageLineage chainStore 2 current
  = Some (["h1"; "h0"], MkHook chainLineage false None) /\
  exists front final,
    chainLineage = LineageNode.mk current 0 None :: front ++ [final] /\
    LineageNode.isOrphan final = Some true.
Proof.
  split; [exact (chain_run 2 (le_n 2))|].
  exact (ends_flagged chainStore 2 mounted current ["h1"; "h0"]
           (MkHook chainLineage false None) "h1" (chain_run 2 (le_n 2)) eq_refl eq_refl).
Defined.

Lemma no_backward_edge_witness :
  useImageLineage chainStore 2 current
  = Some (["h1"; "h0"], MkHook chainLineage false None) /\
  forall i j ni nj h,
    i <= j -> 0 < j ->
    chainLineage !! i = Some ni -> chainLineage !! j = Some nj ->
    flagged nj = false ->
    ProofRecord.originalImageHash (LineageNode.proof nj) = Some h ->
    ProofRecord.transformedImageHash (LineageNode.proof ni) <> Some h.
Proof.
  split; [exact (chain_run 2 (le_n 2))|].
  exact (no_backward_edge chainStore 2 mounted current ["h1"; "h0"]
           (MkHook chainLineage false None) (chain_run 2 (le_n 2)) eq_refl).
Defined.

Lemma producer_followed_iff_new_witness :
  useImageLineage chainStore 1 currentBack
  = Some (["h1"],
          MkHook [LineageNode.mk currentBack 0 None; LineageNode.mk parent 1 (Some true)]
                 false None) /\
  exists st', reachable chainStore current 1 st' /\
    lineageNodes st' = [LineageNode.mk current 0 None; LineageNode.mk parent 1 None] /\
    currentHash st' = "h0".
Proof.
  split.
  - refine (proj1 (producer_followed_iff_new chainStore currentBack 0
                     (enter (startNodes currentBack) (startVisited currentBack) "h1")
                     [parent] parent "h0" 1 mounted
                     (reach_enter chainStore currentBack "h1" eq_refl)
                     eq_refl eq_refl eq_refl) _ (le_n 1)).
    exists (plainNode currentBack 0). split; [by apply list_elem_of_singleton|by right].
  - refine (proj2 (producer_followed_iff_new chainStore current 0
                     (enter (startNodes current) (startVisited current) "h1")
                     [parent] parent "h0" 1 mounted
                     (reach_enter chainStore current "h1" eq_refl)
                     eq_refl eq_refl eq_refl) _).
    intros (node & ->%list_elem_of_singleton & [Hh|Hh]); discriminate.
Defined.

Lemma depth_bound_witness :
  useImageLineage chainStore 2 current
  = Some (["h1"; "h0"], MkHook chainLineage false None) /\
  length ["h1"; "h0"] <= S (size chainHashes) /\
  length chainLineage <= S (S (size chainHashes)).
Proof.
  split; [exact (chain_run 2 (le_n 2))|].
  destruct (depth_bound chainStore chainHashes chainStore_closed 2 mounted current
              ["h1"; "h0"] (MkHook chainLineage false None) (chain_run 2 (le_n 2)))
    as [Hasked Hnodes].
  split; [exact Hasked|exact (Hnodes eq_refl)].
Defined.

Lemma titles_by_position_witness :
  useImageLineage chainStore 2 current
  = Some (["h1"; "h0"], MkHook chainLineage false None) /\
  NodeTitle (LineageNode.mk current 0 None) 0 = CurrentImage /\
  NodeTitle (LineageNode.mk parent 1 None) 1 = GalleryLink "/gallery/parent" (Some "parent") /\
  NodeTitle (LineageNode.mk (createOrphanProof "h0" "Private Image") 2 (Some true)) 2
  = OrphanLabel "Private Image".
Proof.
  pose proof (titles_by_position chainStore 2 mounted current ["h1"; "h0"]
                (MkHook chainLineage false None) (chain_run 2 (le_n 2)) eq_refl) as Htitles.
  split; [exact (chain_run 2 (le_n 2))|]. split; [|split].
  - exact (proj1 (Htitles 0 _ eq_refl) eq_refl).
  - exact (proj1 (proj2 (Htitles 1 _ eq_refl)) (le_n 1) (le_n 3)).
  - exact (proj2 (proj2 (proj2 (Htitles 2 _ eq_refl))) "h0" "Private Image"
             (le_S 1 1 (le_n 1)) eq_refl).
Defined.

Lemma webpack_keeps_other_settings_witness :
  exists e,
    NextConfig.experiments (NextConfig.webpack showBoolean id webpackDefaults) = Some e /\
    e !! "topLevelAwait" = Some "true" /\
    e !! "layers" = Some "true".
Proof.
  destruct (webpack_keeps_other_settings showBoolean id webpackDefaults)
    as (_ & e & o & He & _ & _ & Hlayers & _ & Hother & _).
  exists e. split; [exact He|]. split; [|exact Hlayers].
  rewrite Hother by discriminate. reflexivity.
Defined.

Lemma chain_calls :
  fetchLineageCalls chainStore 2 current
  = Some (MkRun ["h1"; "h0"] [SetLoading true; SetError None]
                [SetLineage chainLineage; SetLoading false]).
Proof. vm_compute. reflexivity. Qed.

Lemma rejecting_calls :
  fetchLineageCalls rejecting 1 current
  = Some (MkRun ["h1"] [SetLoading true; SetError None]
                [SetError (Some "Failed to load image lineage"); SetLoading false]).
Proof. vm_compute. reflexivity. Qed.

Lemma setError_only_on_rejection_witness :
  fetchLineageCalls rejecting 1 current
  = Some (MkRun ["h1"] [SetLoading true; SetError None]
                [SetError (Some "Failed to load image lineage"); SetLoading false]) /\
  (exists earlier h,
     ["h1"] = earlier ++ [h] /\
     rejecting (length earlier) h = Rejects /\
     forall k h', earlier !! k = Some h' -> rejecting k h' <> Rejects) /\
  forall k h, ["h1"; "h0"] !! k = Some h -> chainStore k h <> Rejects.
Proof.
  split; [exact rejecting_calls|]. split.
  - destruct (setError_only_on_rejection rejecting 1 current _ rejecting_calls)
      as [_ [(nodes & Hclosing & _)|[_ Hlast]]]; [discriminate|exact Hlast].
  - destruct (setError_only_on_rejection chainStore 2 current _ chain_calls)
      as [_ [(nodes & _ & _ & Hanswered)|[Hclosing _]]]; [exact Hanswered|discriminate].
Defined.

Lemma view_after_closing_witness :
  ImageLineage id id String.substring
               (foldl applyCall (MkHook [] true None)
                      [SetError (Some "Failed to load image lineage"); SetLoading false])
  = ErrorMessage "Failed to load image lineage" /\
  ImageLineage id id String.substring
               (foldl applyCall (MkHook [] true (Some "Failed to load image lineage"))
                      [SetLineage chainLineage; SetLoading false])
  = ErrorMessage "Failed to load image lineage" /\
  exists rows,
    ImageLineage id id String.substring
                 (foldl applyCall (MkHook [] true None)
                        [SetLineage chainLineage; SetLoading false])
    = Timeline true rows /\
    length rows = 3.
Proof.
  split; [|split].
  - refine (proj1 (proj2 (view_after_closing rejecting id id String.substring 1 current _
                            (MkHook [] true None) rejecting_calls)) _).
    by exists 0, "h1".
  - refine (proj1 (proj2 (proj2 (view_after_closing chainStore id id String.substring
                                   2 current _
                                   (MkHook [] true (Some "Failed to load image lineage"))
                                   chain_calls)) _) _ eq_refl).
    intros k h _. discriminate.
  - destruct (proj2 (proj2 (proj2 (view_after_closing chainStore id id String.substring
                                     2 current _ (MkHook [] true None) chain_calls))
                       ltac:(intros k h _; discriminate)) eq_refl)
      as (nodes & rows & _ & Hview & Hlength & _).
    exists rows. split; [exact Hview|exact Hlength].
Defined.
